(** * AudiobooksAI: the text chunker and the sliding-window rate limiter

    A shallow embedding of [app.py]: the class [RateLimit], the methods
    [chunk_text], [text_to_speech] and [extract_text_from_pdf] of
    [PDFAudioReader], and the voice preselection and download names of
    [main], with the properties their description states and others the
    code shows.

    Conventions.
    - A Python [str] is a [string]; characters are the code points below 256.
    - A Python [int] is a [Z]; [len] is [String.length] or [List.length]
      injected into [Z].
    - A clock reading ([datetime.now().timestamp()]) is a binary64 float,
      here the rational number it stands for. The difference of two
      readings is rounded as the subtraction of floats rounds it, to 53
      significant bits, ties to even; a float is compared with an integer
      exactly, as Python does.
    - Mutation of [self] is explicit state passing; a raised exception is the
      left summand of the result. *)

From Stdlib Require Import String Ascii List ZArith QArith Qround Qpower.
From Stdlib Require Import Bool Lia Lqa Sorted.
From Stdlib Require Import DecimalString DecimalNat FinFun.
Import ListNotations.

Local Open Scope string_scope.
Local Open Scope list_scope.
Local Open Scope Z_scope.

(** ** The string methods used by [chunk_text] *)

Module PyStr.

(** [str.isspace] on one character, for the code points below 256:
    TAB..CR, FS..US, SPACE, NEL and NBSP. *)
Definition is_space (c : ascii) : bool :=
  let n := nat_of_ascii c in
  ((9 <=? n)%nat && (n <=? 13)%nat)
  || ((28 <=? n)%nat && (n <=? 32)%nat)
  || (n =? 133)%nat
  || (n =? 160)%nat.

Definition newline : ascii := "010"%char.
Definition space : ascii := " "%char.
Definition dot : ascii := "."%char.

(** [s.replace(old, new)] for one-character [old] and [new]. *)
Fixpoint replace (old new : ascii) (s : string) : string :=
  match s with
  | EmptyString => EmptyString
  | String c s' =>
      String (if Ascii.eqb c old then new else c) (replace old new s')
  end.

(** [s.split('. ')]: the pieces between the leftmost, non-overlapping
    occurrences of the two-character separator; never the empty list. *)
Fixpoint split_dot_space (s : string) : list string :=
  match s with
  | EmptyString => [EmptyString]
  | String c s' =>
      let extend :=
        match split_dot_space s' with
        | p :: ps => String c p :: ps
        | [] => [String c EmptyString]
        end in
      if Ascii.eqb c dot then
        match s' with
        | String c2 rest =>
            if Ascii.eqb c2 space
            then EmptyString :: split_dot_space rest
            else extend
        | EmptyString => extend
        end
      else extend
  end.

(** [s.lstrip()], [s.rstrip()] and [s.strip()] with no argument. *)
Fixpoint lstrip (s : string) : string :=
  match s with
  | EmptyString => EmptyString
  | String c s' => if is_space c then lstrip s' else s
  end.

Fixpoint rstrip (s : string) : string :=
  match s with
  | EmptyString => EmptyString
  | String c s' =>
      match rstrip s' with
      | EmptyString => if is_space c then EmptyString else String c EmptyString
      | r => String c r
      end
  end.

Definition strip (s : string) : string := rstrip (lstrip s).

(** [sep.join(l)]. *)
Fixpoint join (sep : string) (l : list string) : string :=
  match l with
  | [] => EmptyString
  | [x] => x
  | x :: rest => x ++ sep ++ join sep rest
  end.

(** [len(s)] as a Python integer. *)
Definition len (s : string) : Z := Z.of_nat (String.length s).

(** Truth value of a string: [not s] holds of the empty string only. *)
Definition is_empty (s : string) : bool :=
  match s with EmptyString => true | _ => false end.

(** The last character, when there is one ([s[-1]]). *)
Fixpoint last_char (s : string) : option ascii :=
  match s with
  | EmptyString => None
  | String c EmptyString => Some c
  | String _ s' => last_char s'
  end.

(** [s[:-1]]: all but the last character. *)
Fixpoint drop_last (s : string) : string :=
  match s with
  | EmptyString => EmptyString
  | String _ EmptyString => EmptyString
  | String c s' => String c (drop_last s')
  end.

(** Whether [s] begins with a space. *)
Definition starts_with_space (s : string) : bool :=
  match s with
  | String c _ => Ascii.eqb c space
  | EmptyString => false
  end.

(** Whether the separator ['. '] occurs in [s]. *)
Fixpoint has_sep (s : string) : bool :=
  match s with
  | EmptyString => false
  | String c s' => (Ascii.eqb c dot && starts_with_space s') || has_sep s'
  end.

(** Text made only of whitespace and of periods each followed by a space
    or a newline. *)
Fixpoint blank (s : string) : bool :=
  match s with
  | EmptyString => true
  | String c s' =>
      if is_space c then blank s'
      else if Ascii.eqb c dot then
        match s' with
        | String c2 rest =>
            (Ascii.eqb c2 space || Ascii.eqb c2 newline) && blank rest
        | EmptyString => false
        end
      else false
  end.

(** Whether the character [c] occurs in [s] ([c in s]). *)
Fixpoint occurs (c : ascii) (s : string) : bool :=
  match s with
  | EmptyString => false
  | String c' s' => Ascii.eqb c' c || occurs c s'
  end.

End PyStr.

(** ** [PDFAudioReader.chunk_text] *)

Module Chunker.
Import PyStr.

(** The three locals the loop updates. *)
Record loop_state : Type := mk_loop {
  chunks : list string;
  current_chunk : list string;
  current_length : Z
}.

(** ['. '.join(current_chunk) + '.'] *)
Definition flush (current_chunk : list string) : string :=
  join ". " current_chunk ++ ".".

(** [if current_chunk: chunks.append(...)] *)
Definition flush_into (chunks current_chunk : list string) : list string :=
  match current_chunk with
  | [] => chunks
  | _ :: _ => chunks ++ [flush current_chunk]
  end.

(** One iteration of [for sentence in sentences]. *)
Definition loop_body (max_chars : Z) (st : loop_state) (sentence : string)
  : loop_state :=
  let sentence := strip sentence in
  if is_empty sentence then st
  else if current_length st + len sentence + 2 <=? max_chars then
    mk_loop (chunks st)
            (current_chunk st ++ [sentence])
            (current_length st + len sentence + 2)
  else
    mk_loop (flush_into (chunks st) (current_chunk st))
            [sentence]
            (len sentence).

Definition chunk_text (text : string) (max_chars : Z) : list string :=
  let sentences := split_dot_space (replace newline space text) in
  let st := fold_left (loop_body max_chars) sentences (mk_loop [] [] 0) in
  flush_into (chunks st) (current_chunk st).

(** The default of the keyword argument. *)
Definition default_max_chars : Z := 2000.

(** The sentences the loop keeps: trimmed pieces, the empty ones skipped. *)
Definition sentences_of (text : string) : list string :=
  filter (fun s => negb (is_empty s))
         (map strip (split_dot_space (replace newline space text))).

(** Undoing [flush]: drop the appended period, split at the separators. *)
Definition unflush (chunk : string) : list string :=
  split_dot_space (drop_last chunk).

(** What C1 asks of one chunk: within the limit, or one sentence of the
    text that is itself longer than the limit. *)
Definition within_limit (text : string) (max_chars : Z) (chunk : string)
  : Prop :=
  len chunk <= max_chars
  \/ exists sentence, In sentence (sentences_of text)
                      /\ chunk = flush [sentence]
                      /\ max_chars < len sentence.

(** What the loop does achieve for one chunk: at most one character over
    the limit, or one sentence (from [all]) itself longer than the limit. *)
Definition bounded (all : list string) (max_chars : Z) (chunk : string)
  : Prop :=
  len chunk <= max_chars + 1
  \/ exists sentence, In sentence all
                      /\ chunk = flush [sentence]
                      /\ max_chars < len sentence.

(** What the loop keeps true of its accumulator and running length. *)
Definition pending_ok (all : list string) (max_chars : Z) (st : loop_state)
  : Prop :=
  0 <= current_length st
  /\ (current_chunk st <> [] ->
      len (join ". " (current_chunk st)) <= current_length st
      /\ (current_length st <= max_chars
          \/ exists sentence, In sentence all
                              /\ current_chunk st = [sentence]
                              /\ max_chars < len sentence)).

(** What the running length charges for a list of sentences that all go
    through the first branch: two characters more than each one. *)
Fixpoint budget (sentences : list string) : Z :=
  match sentences with
  | [] => 0
  | s :: rest => len s + 2 + budget rest
  end.

(** The sentence [s] is in a chunk of its own that is, or will be, flushed
    as it stands. *)
Definition closed_alone (max_chars : Z) (s : string) (st : loop_state)
  : Prop :=
  In (flush [s]) (chunks st)
  \/ (current_chunk st = [s] /\ max_chars < current_length st).

(** The chunk [c1] was closed because the first sentence of the next
    chunk [c2] did not fit. *)
Definition closed_for (max_chars : Z) (c1 c2 : string) : Prop :=
  max_chars < len c1 + len (hd EmptyString (unflush c2)) + 3.

(** Every chunk of [l] but the last was closed for its successor. *)
Definition greedy (max_chars : Z) (l : list string) : Prop :=
  forall pre c1 c2 post,
    l = pre ++ c1 :: c2 :: post -> closed_for max_chars c1 c2.

(** What the loop keeps true so that its chunks are [greedy]. *)
Definition greedy_state (max_chars : Z) (st : loop_state) : Prop :=
  greedy max_chars (chunks st)
  /\ (forall pre c1,
        chunks st = pre ++ [c1] ->
        max_chars
        < len c1 + len (hd EmptyString (current_chunk st)) + 3)
  /\ Forall (fun p => has_sep p = false) (current_chunk st)
  /\ (current_chunk st = [] -> chunks st = [] /\ current_length st = 0)
  /\ current_length st <= len (join ". " (current_chunk st)) + 2.

End Chunker.


(** ** Subtraction of floats *)

Module Float64.

Local Open Scope Q_scope.

(** The exponent of the leading bit of a positive [x]: the [e] with
    [2^e <= x < 2^(e+1)]. *)
Definition ilog2 (x : Q) : Z :=
  let k := (Z.log2 (Qnum x) - Z.log2 (Zpos (Qden x)))%Z in
  if Qle_bool (2 ^ k) x then k else (k - 1)%Z.

(** The nearest integer, the even one of two equally near. *)
Definition rne (x : Q) : Z :=
  let f := Qfloor x in
  match Qcompare (x - inject_Z f) (1 # 2) with
  | Lt => f
  | Gt => (f + 1)%Z
  | Eq => if Z.even f then f else (f + 1)%Z
  end.

(** A positive [x] rounded to 53 significant bits. *)
Definition round_pos (x : Q) : Q :=
  let s := (ilog2 x - 52)%Z in
  inject_Z (rne (x / 2 ^ s)) * 2 ^ s.

(** Rounding to the nearest binary64 value. The exponent is not bounded:
    differences of clock readings are far from overflow, and a difference
    of two floats too small for a normal number is a float itself. *)
Definition round (x : Q) : Q :=
  match Qcompare 0 x with
  | Eq => 0
  | Lt => round_pos x
  | Gt => - round_pos (- x)
  end.

(** [a - b] on floats. *)
Definition sub (a b : Q) : Q := round (a - b).

Arguments sub : simpl never.

(** The floats written [0.1] and [10.1] in Python. *)
Definition f0_1 : Q := 3602879701896397 # 36028797018963968.
Definition f10_1 : Q := 5685794529555251 # 562949953421312.

End Float64.

(** ** [RateLimit] *)

Module Limiter.

Local Open Scope Q_scope.

(** [x < y] on clock readings, as a boolean. *)
Definition Qlt_bool (x y : Q) : bool :=
  match x ?= y with
  | Lt => true
  | _ => false
  end.

Record RateLimit : Type := mk_RateLimit {
  max_requests : Z;
  time_window : Z;
  requests : list Q
}.

(** [RateLimit.__init__] *)
Definition init (max_requests time_window : Z) : RateLimit :=
  mk_RateLimit max_requests time_window [].

(** [RateLimit.is_allowed], the clock reading [now] made explicit: the
    answer and the object after the call. *)
Definition is_allowed (now : Q) (self : RateLimit) : bool * RateLimit :=
  let requests' :=
    filter (fun req =>
              Qlt_bool (Float64.sub now req) (inject_Z (time_window self)))
           (requests self) in
  if (Z.of_nat (List.length requests') >=? max_requests self)%Z then
    (false, mk_RateLimit (max_requests self) (time_window self) requests')
  else
    (true,
     mk_RateLimit (max_requests self) (time_window self) (requests' ++ [now])).

(** Successive calls, one per clock reading: the answers in order and the
    object after the last call. *)
Fixpoint calls (self : RateLimit) (nows : list Q) : list bool * RateLimit :=
  match nows with
  | [] => ([], self)
  | now :: later =>
      let (answer, self1) := is_allowed now self in
      let (answers, self2) := calls self1 later in
      (answer :: answers, self2)
  end.

(** A stored timestamp has left the window at [now] when it is aged
    [time_window] seconds or more, its age being the difference the code
    computes. *)
Definition aged_out (now : Q) (time_window : Z) (req : Q) : bool :=
  Qle_bool (inject_Z time_window) (Float64.sub now req).

(** The stored timestamps with the aged-out ones removed. *)
Definition purge (now : Q) (time_window : Z) (reqs : list Q) : list Q :=
  filter (fun req => negb (aged_out now time_window req)) reqs.

(** Stored timestamps are in order and none is later than [last]. *)
Definition ordered_upto (last : Q) (self : RateLimit) : Prop :=
  StronglySorted Qle (requests self)
  /\ Forall (fun t => t <= last) (requests self).

(** Whether the timestamp [t] is within the window that ends at [now],
    its age being the difference the code computes. *)
Definition in_window (now : Q) (time_window : Z) (t : Q) : bool :=
  Qlt_bool (Float64.sub now t) (inject_Z time_window).

(** The clock readings of the calls that were answered true. *)
Fixpoint admitted (nows : list Q) (answers : list bool) : list Q :=
  match nows, answers with
  | now :: nows', true :: answers' => now :: admitted nows' answers'
  | _ :: nows', false :: answers' => admitted nows' answers'
  | _, _ => []
  end.

End Limiter.

(** ** [PDFAudioReader.text_to_speech] *)

Module Speech.
Import PyStr Chunker Limiter.

(** Audio returned by the service. *)
Definition bytes : Type := list Byte.byte.

(** An exception raised by the external call: [str(e)] and the text of
    [traceback.format_exc()]. *)
Record failure : Type := mk_failure {
  message : string;
  traceback : string
}.

(** [raise Exception(msg)] *)
Inductive exn : Type :=
| Exception (msg : string).

(** What one invocation does, in order: the calls it makes on the rate
    limiter, the chunker, the progress bar, the service, the timer and the
    logger. *)
Inductive event : Type :=
| IsAllowed (now : Q) (answer : bool)
| ChunkText (text : string)
| Progress (done total : Z)
| Generate (text voice model : string) (outcome : failure + bytes)
| Sleep (seconds : Q)
| LogError (msg : string).

Record PDFAudioReader : Type := mk_reader {
  api_key : string;
  rate_limiter : RateLimit
}.

Definition model_id : string := "eleven_monolingual_v1".
Definition rate_limit_message : string :=
  "Rate limit exceeded. Please try again later.".
Definition pause : Q := 1 # 2.

Definition is_limiter_check (e : event) : bool :=
  match e with IsAllowed _ _ => true | _ => false end.

(** The chunk texts submitted to the service, in order. *)
Fixpoint submitted (evs : list event) : list string :=
  match evs with
  | [] => []
  | Generate text _ _ _ :: evs' => text :: submitted evs'
  | _ :: evs' => submitted evs'
  end.

(** The audio the service returned, in order. *)
Fixpoint returned (evs : list event) : list bytes :=
  match evs with
  | [] => []
  | Generate _ _ _ (inr audio) :: evs' => audio :: returned evs'
  | _ :: evs' => returned evs'
  end.

(** The values shown by the progress bar, as numerator and denominator. *)
Fixpoint progress_of (evs : list event) : list (Z * Z) :=
  match evs with
  | [] => []
  | Progress done total :: evs' => (done, total) :: progress_of evs'
  | _ :: evs' => progress_of evs'
  end.

(** The pauses taken, in order. *)
Fixpoint pauses (evs : list event) : list Q :=
  match evs with
  | [] => []
  | Sleep seconds :: evs' => seconds :: pauses evs'
  | _ :: evs' => pauses evs'
  end.

Section TextToSpeech.

(** What lies outside the program: the wall clock and the speech service. *)
Variable World : Type.
(** [datetime.now().timestamp()] *)
Variable clock : World -> Q.
(** [elevenlabs.generate(text=, voice=, model=)]: audio, or an exception. *)
Variable generate : World -> string -> string -> string -> World * (failure + bytes).
(** [time.sleep] *)
Variable sleep : Q -> World -> World.

(** What a run leaves behind. *)
Record outcome : Type := mk_outcome {
  self' : PDFAudioReader;
  world' : World;
  events : list event;
  result : exn + list bytes
}.

(** [for i, chunk in enumerate(chunks)] with its [try]/[except]; [total] is
    [len(chunks)] of the whole list, [i] the index of the head of [todo]. *)
Fixpoint synthesize (voice : string) (total i : Z) (todo : list string)
    (audio_segments : list bytes) (w : World)
  : World * list event * (exn + list bytes) :=
  match todo with
  | [] => (w, [], inr audio_segments)
  | chunk :: todo' =>
      let (w1, r) := generate w chunk voice model_id in
      match r with
      | inr audio =>
          let '(w2, evs, res) :=
            synthesize voice total (i + 1) todo'
                       (audio_segments ++ [audio]) (sleep pause w1) in
          (w2,
           Progress (i + 1) total :: Generate chunk voice model_id r
             :: Sleep pause :: evs,
           res)
      | inl e =>
          (w1,
           [Progress (i + 1) total; Generate chunk voice model_id r;
            LogError ("Audio generation error: " ++ message e
                      ++ String newline (traceback e))],
           inl (Exception ("Error generating audio: " ++ message e)))
      end
  end.

Definition text_to_speech (text voice : string) (self : PDFAudioReader)
    (w : World) : outcome :=
  let now := clock w in
  let (allowed, limiter) := is_allowed now (rate_limiter self) in
  let self1 := mk_reader (api_key self) limiter in
  if negb allowed then
    mk_outcome self1 w [IsAllowed now allowed]
               (inl (Exception rate_limit_message))
  else
    let chunks := chunk_text text default_max_chars in
    let '(w1, evs, res) :=
      synthesize voice (Z.of_nat (List.length chunks)) 0 chunks [] w in
    mk_outcome self1 w1 (IsAllowed now allowed :: ChunkText text :: evs) res.

End TextToSpeech.

Arguments self' {World} _.
Arguments world' {World} _.
Arguments events {World} _.
Arguments result {World} _.

(** A sample world: the state counts the calls made to the service, whose
    second call fails; the clock stands still. *)
Module Sample.

Fixpoint repeat_char (c : ascii) (n : nat) : string :=
  match n with
  | O => EmptyString
  | S n' => String c (repeat_char c n')
  end.

Definition quota : failure :=
  mk_failure "quota exceeded" "Traceback (most recent call last)".

Definition clock (w : nat) : Q := 0.

Definition generate (w : nat) (text voice model : string)
  : nat * (failure + bytes) :=
  (S w, if Nat.eqb w 1 then inl quota else inr [Byte.x49; Byte.x44]).

Definition sleep (seconds : Q) (w : nat) : nat := w.

(** Three sentences of 1500 characters: three chunks at the default
    limit. *)
Definition text : string :=
  repeat_char "a" 1500 ++ ". " ++ repeat_char "b" 1500 ++ ". "
  ++ repeat_char "c" 1500.

Definition reader : PDFAudioReader :=
  mk_reader "key" (init 10 3600).

End Sample.

End Speech.

(** ** [PDFAudioReader.extract_text_from_pdf] *)

Module Extractor.
Import PyStr Speech.

(** What [PyPDF2] makes of the uploaded file: [PdfReader(pdf_file)] raises,
    or gives pages whose [extract_text()] returns text or raises. *)
Inductive pdf : Type :=
| Unreadable (e : failure)
| Readable (pages : list (failure + string)).

(** What the extraction does to the screen and the log: the progress bar
    and the line of text under it, both removed at the end. *)
Inductive event : Type :=
| Bar (done total : Z)
| Label (done total : Z)
| LabelRemoved
| BarRemoved
| Logged (msg : string).

Definition read_error_message : string :=
  "Error reading PDF. Please ensure it's a valid PDF file.".

(** [for i, page in enumerate(pdf_reader.pages)], stopped by the first
    page that raises. *)
Fixpoint read_pages (total i : Z) (pages : list (failure + string))
    (text : string) : list event * (failure + string) :=
  match pages with
  | [] => ([], inr text)
  | inl e :: _ => ([], inl e)
  | inr page_text :: pages' =>
      let (evs, r) :=
        read_pages total (i + 1) pages'
                   (text ++ (page_text ++ String newline "")) in
      (Bar (i + 1) total :: Label (i + 1) total :: evs, r)
  end.

Definition log_line (e : failure) : string :=
  "PDF extraction error: " ++ message e ++ String newline (traceback e).

Definition extract_text_from_pdf (pdf_file : pdf)
  : list event * (exn + string) :=
  match pdf_file with
  | Unreadable e => ([Logged (log_line e)], inl (Exception read_error_message))
  | Readable pages =>
      let (evs, r) :=
        read_pages (Z.of_nat (List.length pages)) 0 pages "" in
      match r with
      | inr text => (Bar 0 1 :: evs ++ [LabelRemoved; BarRemoved], inr text)
      | inl e => (Bar 0 1 :: evs ++ [Logged (log_line e)],
                  inl (Exception read_error_message))
      end
  end.

(** Every page text followed by a newline, in order. *)
Fixpoint lines (page_texts : list string) : string :=
  match page_texts with
  | [] => EmptyString
  | t :: rest => t ++ String newline (lines rest)
  end.

End Extractor.

(** ** Pieces of [main] *)

Module Main.

(** [l.index(x)]: the first position of [x]; [None] stands for the
    [ValueError] raised when [x] is absent. *)
Fixpoint index (x : string) (l : list string) : option nat :=
  match l with
  | [] => None
  | y :: l' =>
      if String.eqb y x then Some O
      else match index x l' with
           | Some i => Some (S i)
           | None => None
           end
  end.

(** [x in l] *)
Definition contains (x : string) (l : list string) : bool :=
  existsb (fun y => String.eqb y x) l.

(** [voice_names.index("Josh") if "Josh" in voice_names else 0], the
    preselected entry of the voice list. *)
Definition default_voice_index (voice_names : list string) : option nat :=
  if contains "Josh" voice_names then index "Josh" voice_names else Some O.

(** [str(i)] for a natural number. *)
Definition str_of_nat (i : nat) : string :=
  NilEmpty.string_of_uint (Nat.to_uint i).

(** [f"{uploaded_file.name}_part_{i}.mp3"] *)
Definition download_name (file_name : string) (i : nat) : string :=
  file_name ++ "_part_" ++ str_of_nat i ++ ".mp3".

(** The file names offered for the segments: [enumerate(audio_segments, 1)]. *)
Definition download_names (file_name : string) (segments : list Speech.bytes)
  : list string :=
  map (download_name file_name) (seq 1 (List.length segments)).

End Main.

(** * Properties *)

(** ** Rounding *)

Section FloatFacts.
Import Float64.
Local Open Scope Q_scope.

Lemma two_pos (s : Z) : 0 < 2 ^ s.
Proof. apply Qpower_0_lt. reflexivity. Qed.

Lemma two_le (a b : Z) : (a <= b)%Z -> 2 ^ a <= 2 ^ b.
Proof. intro H. apply Qpower_le_compat_l; [ exact H | discriminate ]. Qed.

Lemma two_Z (a : Z) : (0 <= a)%Z -> 2 ^ a == inject_Z (2 ^ a).
Proof. intro H. now rewrite Zpower_Qpower. Qed.

Lemma rne_floor (x : Q) : (Qfloor x <= rne x <= Qfloor x + 1)%Z.
Proof.
  unfold rne. destruct (Qcompare _ _); [ destruct (Z.even _) | | ]; lia.
Qed.

Lemma rne_comp (x y : Q) : x == y -> rne x = rne y.
Proof.
  intro E. unfold rne. rewrite (Qfloor_comp _ _ E).
  now rewrite (Qcompare_comp _ _ (Qminus_comp _ _ E _ _ (Qeq_refl _))
                 _ _ (Qeq_refl (1 # 2))).
Qed.

Lemma rne_Z (z : Z) : rne (inject_Z z) = z.
Proof.
  unfold rne. rewrite Qfloor_Z.
  replace (Qcompare (inject_Z z - inject_Z z) (1 # 2)) with Lt;
    [ reflexivity | ].
  symmetry. apply Qlt_alt. unfold Qminus. rewrite Qplus_opp_r. reflexivity.
Qed.

Lemma rne_le (x y : Q) : x <= y -> (rne x <= rne y)%Z.
Proof.
  intro H. pose proof (Qfloor_resp_le x y H) as Hf.
  pose proof (rne_floor x) as Hx. pose proof (rne_floor y) as Hy.
  destruct (Z.eq_dec (Qfloor x) (Qfloor y)) as [E | N]; [ | lia ].
  clear Hx Hy. unfold rne. rewrite <- E.
  destruct (Qcompare_spec (x - inject_Z (Qfloor x)) (1 # 2)) as [Cx | Cx | Cx];
    destruct (Qcompare_spec (y - inject_Z (Qfloor x)) (1 # 2))
      as [Cy | Cy | Cy];
    try lia; try (destruct (Z.even (Qfloor x)); lia); exfalso; lra.
Qed.

Lemma Qdiv_lt_cross (p q r t : Q) :
  0 < q -> 0 < t -> p * t < r * q -> p / q < r / t.
Proof.
  intros Hq Ht H. apply Qlt_shift_div_l; [ exact Ht | ].
  setoid_replace (p / q * t) with (p * t / q)
    by (field; intro E; rewrite E in Hq; discriminate).
  now apply Qlt_shift_div_r.
Qed.

Lemma ilog2_spec (x : Q) :
  0 < x -> 2 ^ ilog2 x <= x /\ x < 2 ^ (ilog2 x + 1).
Proof.
  intro Hx. destruct x as [n d]. unfold ilog2. simpl Qnum. simpl Qden.
  assert (Hn : (0 < n)%Z) by (unfold Qlt in Hx; simpl in Hx; lia).
  set (a := Z.log2 n). set (b := Z.log2 (Zpos d)).
  pose proof (Z.log2_spec n Hn) as Ha. fold a in Ha.
  pose proof (Z.log2_spec (Zpos d) (Pos2Z.is_pos d)) as Hb. fold b in Hb.
  pose proof (Z.log2_nonneg n) as Ha0. fold a in Ha0.
  pose proof (Z.log2_nonneg (Zpos d)) as Hb0. fold b in Hb0.
  assert (Hfrac : forall u v : Z, (0 <= u)%Z -> (0 <= v)%Z ->
            2 ^ (u - v) == inject_Z (2 ^ u) / inject_Z (2 ^ v)).
  { intros u v Hu Hv. rewrite Qpower_minus by discriminate.
    now rewrite !two_Z. }
  assert (Hnd : n # d == inject_Z n / inject_Z (Zpos d))
    by apply Qmake_Qdiv.
  assert (Hd : 0 < inject_Z (Zpos d)) by reflexivity.
  assert (Hpb : forall v, (0 <= v)%Z -> 0 < inject_Z (2 ^ v)).
  { intros v Hv. rewrite <- two_Z by exact Hv. apply two_pos. }
  assert (Hup : n # d < 2 ^ (a - b + 1)).
  { replace (a - b + 1)%Z with ((a + 1) - b)%Z by lia.
    rewrite Hfrac, Hnd by lia.
    apply Qdiv_lt_cross; [ exact Hd | now apply Hpb | ].
    rewrite <- !inject_Z_mult, <- Zlt_Qlt.
    assert (0 < 2 ^ b)%Z by (apply Z.pow_pos_nonneg; lia). nia. }
  assert (Hlo : 2 ^ (a - b - 1) < n # d).
  { replace (a - b - 1)%Z with (a - (b + 1))%Z by lia.
    rewrite Hfrac, Hnd by lia.
    apply Qdiv_lt_cross; [ apply Hpb; lia | exact Hd | ].
    rewrite <- !inject_Z_mult, <- Zlt_Qlt.
    assert (0 < 2 ^ a)%Z by (apply Z.pow_pos_nonneg; lia). nia. }
  destruct (Qle_bool (2 ^ (a - b)) (n # d)) eqn:E.
  - apply Qle_bool_iff in E. split; [ exact E | exact Hup ].
  - split; [ now apply Qlt_le_weak | ].
    replace (a - b - 1 + 1)%Z with (a - b)%Z by lia.
    apply Qnot_le_lt. intro H. apply Qle_bool_iff in H. congruence.
Qed.

Lemma ilog2_le (x y : Q) : 0 < x -> x <= y -> (ilog2 x <= ilog2 y)%Z.
Proof.
  intros Hx Hxy.
  destruct (ilog2_spec x Hx) as [Hx1 _].
  destruct (ilog2_spec y (Qlt_le_trans _ _ _ Hx Hxy)) as [_ Hy2].
  assert (H : 2 ^ ilog2 x < 2 ^ (ilog2 y + 1)).
  { eapply Qle_lt_trans; [ exact Hx1 | ].
    eapply Qle_lt_trans; [ exact Hxy | exact Hy2 ]. }
  apply Qpower_lt_compat_l_inv in H; [ lia | reflexivity ].
Qed.

(** The scaled value lies between 2^52 and 2^53. *)
Lemma scaled_bounds (x : Q) :
  0 < x ->
  inject_Z (2 ^ 52) <= x / 2 ^ (ilog2 x - 52)
  /\ x / 2 ^ (ilog2 x - 52) <= inject_Z (2 ^ 53).
Proof.
  intro Hx. destruct (ilog2_spec x Hx) as [H1 H2].
  pose proof (two_pos (ilog2 x - 52)) as Hs.
  rewrite <- !two_Z by lia. split.
  - apply Qle_shift_div_l; [ exact Hs | ].
    rewrite <- Qpower_plus by discriminate.
    now replace (52 + (ilog2 x - 52))%Z with (ilog2 x) by lia.
  - apply Qle_shift_div_r; [ exact Hs | ].
    rewrite <- Qpower_plus by discriminate.
    replace (53 + (ilog2 x - 52))%Z with (ilog2 x + 1)%Z by lia.
    now apply Qlt_le_weak.
Qed.

Lemma round_pos_bounds (x : Q) :
  0 < x -> 2 ^ ilog2 x <= round_pos x /\ round_pos x <= 2 ^ (ilog2 x + 1).
Proof.
  intro Hx. destruct (scaled_bounds x Hx) as [H1 H2].
  apply rne_le in H1. apply rne_le in H2. rewrite rne_Z in H1, H2.
  pose proof (two_pos (ilog2 x - 52)) as Hs.
  unfold round_pos. split.
  - replace (ilog2 x) with (52 + (ilog2 x - 52))%Z at 1 by lia.
    rewrite Qpower_plus by discriminate.
    apply Qmult_le_compat_r; [ | now apply Qlt_le_weak ].
    rewrite (two_Z 52) by lia. rewrite <- Zle_Qle. exact H1.
  - replace (ilog2 x + 1)%Z with (53 + (ilog2 x - 52))%Z by lia.
    rewrite Qpower_plus by discriminate.
    apply Qmult_le_compat_r; [ | now apply Qlt_le_weak ].
    rewrite (two_Z 53) by lia. rewrite <- Zle_Qle. exact H2.
Qed.

Lemma round_pos_pos (x : Q) : 0 < x -> 0 < round_pos x.
Proof.
  intro Hx. eapply Qlt_le_trans; [ apply (two_pos (ilog2 x)) | ].
  now apply round_pos_bounds.
Qed.

Lemma round_pos_le (x y : Q) : 0 < x -> x <= y -> round_pos x <= round_pos y.
Proof.
  intros Hx Hxy. assert (Hy : 0 < y) by (eapply Qlt_le_trans; eassumption).
  pose proof (ilog2_le x y Hx Hxy) as He.
  destruct (Z.eq_dec (ilog2 x) (ilog2 y)) as [E | N].
  - unfold round_pos. rewrite E.
    pose proof (two_pos (ilog2 y - 52)) as Hs.
    apply Qmult_le_compat_r; [ | now apply Qlt_le_weak ].
    rewrite <- Zle_Qle. apply rne_le.
    apply Qmult_le_compat_r; [ exact Hxy | ].
    apply Qlt_le_weak, Qinv_lt_0_compat, Hs.
  - destruct (round_pos_bounds x Hx) as [_ H2].
    destruct (round_pos_bounds y Hy) as [H1 _].
    eapply Qle_trans; [ exact H2 | ].
    eapply Qle_trans; [ | exact H1 ].
    apply two_le. lia.
Qed.

(** Rounding is monotone. *)
Lemma round_le (x y : Q) : x <= y -> round x <= round y.
Proof.
  intro H. unfold round.
  destruct (Qcompare_spec 0 x) as [Ex | Px | Nx];
    destruct (Qcompare_spec 0 y) as [Ey | Py | Ny].
  - apply Qle_refl.
  - apply Qlt_le_weak. now apply round_pos_pos.
  - exfalso. lra.
  - exfalso. lra.
  - now apply round_pos_le.
  - exfalso. lra.
  - assert (Hp : 0 < round_pos (- x)) by (apply round_pos_pos; lra). lra.
  - assert (Hp : 0 < round_pos (- x)) by (apply round_pos_pos; lra).
    assert (Hq : 0 < round_pos y) by (now apply round_pos_pos). lra.
  - assert (Hp : round_pos (- y) <= round_pos (- x))
      by (apply round_pos_le; lra).
    lra.
Qed.

Lemma round_zero (x : Q) : x == 0 -> round x = 0.
Proof.
  intro E. unfold round.
  destruct (Qcompare_spec 0 x) as [_ | H | H]; [ reflexivity | | ];
    exfalso; rewrite E in H; discriminate.
Qed.

Lemma sub_same (a : Q) : sub a a = 0.
Proof. apply round_zero. unfold Qminus. apply Qplus_opp_r. Qed.

Lemma sub_le (a b c d : Q) : a - b <= c - d -> sub a b <= sub c d.
Proof. apply round_le. Qed.

Lemma round_pos_Z (z : Z) :
  (0 < z <= 2 ^ 53)%Z -> round_pos (inject_Z z) == inject_Z z.
Proof.
  intros [Hz0 Hz53].
  destruct (Z.eq_dec z (2 ^ 53)) as [-> | Hne]; [ vm_compute; reflexivity | ].
  assert (Hq : 0 < inject_Z z) by (rewrite <- (Zlt_Qlt 0); exact Hz0).
  destruct (ilog2_spec (inject_Z z) Hq) as [H1 H2].
  set (e := ilog2 (inject_Z z)) in *.
  assert (He : (e < 53)%Z).
  { apply (Qpower_lt_compat_l_inv 2); [ | reflexivity ].
    eapply Qle_lt_trans; [ exact H1 | ].
    rewrite (two_Z 53) by lia. rewrite <- Zlt_Qlt. lia. }
  unfold round_pos. fold e.
  set (k := (52 - e)%Z).
  assert (Hs : 2 ^ (e - 52) == / inject_Z (2 ^ k)).
  { replace (e - 52)%Z with (- k)%Z by (unfold k; lia).
    rewrite Qpower_opp. now rewrite (two_Z k) by (unfold k; lia). }
  assert (Hk : 0 < inject_Z (2 ^ k)).
  { rewrite <- (two_Z k) by (unfold k; lia). apply two_pos. }
  assert (Hsc : inject_Z z / 2 ^ (e - 52) == inject_Z (z * 2 ^ k)).
  { rewrite Hs, inject_Z_mult. field.
    intro E. rewrite E in Hk. discriminate. }
  rewrite (rne_comp _ _ Hsc), rne_Z, Hs, inject_Z_mult. field.
  intro E. rewrite E in Hk. discriminate.
Qed.

(** Integers up to 2^53 in magnitude are not changed by rounding. *)
Lemma round_Z (z : Z) :
  (Z.abs z <= 2 ^ 53)%Z -> round (inject_Z z) == inject_Z z.
Proof.
  intro Hz. unfold round.
  destruct (Qcompare_spec 0 (inject_Z z)) as [E | P | N].
  - exact E.
  - apply round_pos_Z. rewrite <- (Zlt_Qlt 0) in P. lia.
  - assert (Hn : (z < 0)%Z) by (rewrite Zlt_Qlt; exact N).
    change (- inject_Z z) with (inject_Z (- z)).
    rewrite round_pos_Z by lia. rewrite inject_Z_opp. ring.
Qed.

Lemma round_ge_Z (w : Z) (x : Q) :
  (Z.abs w <= 2 ^ 53)%Z -> inject_Z w <= x -> inject_Z w <= round x.
Proof.
  intros Hw H. rewrite <- (round_Z w Hw). now apply round_le.
Qed.

Lemma round_le_Z (w : Z) (x : Q) :
  (Z.abs w <= 2 ^ 53)%Z -> x <= inject_Z w -> round x <= inject_Z w.
Proof.
  intros Hw H. rewrite <- (round_Z w Hw). now apply round_le.
Qed.

Lemma sub_below (a b : Q) (k : Z) :
  (Z.abs k <= 2 ^ 53)%Z -> a - b <= inject_Z k -> sub a b <= inject_Z k.
Proof. intros Hk H. now apply round_le_Z. Qed.

Lemma sub_above (a b : Q) (k : Z) :
  (Z.abs k <= 2 ^ 53)%Z -> inject_Z k <= a - b -> inject_Z k <= sub a b.
Proof. intros Hk H. now apply round_ge_Z. Qed.

(** The difference of the floats [10.1] and [0.1] is the float [10.0],
    though the numbers they stand for are less than ten apart. *)
Example sub_rounds_up :
  f10_1 - f0_1 < 10 /\ sub f10_1 f0_1 == 10.
Proof. split; reflexivity. Qed.

End FloatFacts.

(** ** The rate limiter *)

Section LimiterFacts.
Import Limiter.
Local Open Scope Q_scope.

Lemma Qlt_bool_spec (x y : Q) : BoolSpec (x < y) (y <= x) (Qlt_bool x y).
Proof.
  unfold Qlt_bool. destruct (x ?= y) eqn:E; constructor.
  - apply Qeq_alt in E. rewrite E. apply Qle_refl.
  - now apply Qlt_alt.
  - apply Qlt_le_weak. now apply Qgt_alt.
Qed.

Lemma Qlt_bool_true (x y : Q) : Qlt_bool x y = true <-> x < y.
Proof.
  destruct (Qlt_bool_spec x y) as [H | H]; split; intro G;
    try reflexivity; try assumption; try discriminate.
  exfalso. exact (Qlt_not_le _ _ G H).
Qed.

Ltac decide_window :=
  repeat match goal with
  | |- context [Qlt_bool ?a ?b] =>
      let H := fresh "W" in
      destruct (Qlt_bool_spec a b) as [H | H]; simpl in *
  end.

(** C3. A limiter made with [max_requests = 2] and [time_window = 10] admits
    two calls made one after the other and refuses a third, the three
    being made within nine seconds; it admits a call made ten seconds or
    more after the first. A call exactly ten seconds after is admitted,
    the comparison being strict. *)
Theorem two_per_ten_seconds (t1 t2 t3 t4 : Q) :
  t1 <= t2 -> t2 <= t3 -> t3 <= t1 + 9 -> t1 + 10 <= t4 ->
  fst (calls (init 2 10) [t1; t2; t3; t4]) = [true; true; false; true].
Proof.
  intros H12 H23 H31 H14.
  assert (K21 : Float64.sub t2 t1 <= inject_Z 9)
    by (apply sub_below; [ discriminate | unfold inject_Z; lra ]).
  assert (K31 : Float64.sub t3 t1 <= inject_Z 9)
    by (apply sub_below; [ discriminate | unfold inject_Z; lra ]).
  assert (K32 : Float64.sub t3 t2 <= inject_Z 9)
    by (apply sub_below; [ discriminate | unfold inject_Z; lra ]).
  assert (K41 : inject_Z 10 <= Float64.sub t4 t1)
    by (apply sub_above; [ discriminate | unfold inject_Z; lra ]).
  unfold calls, init, is_allowed; simpl.
  decide_window; try reflexivity; exfalso; unfold inject_Z in *; lra.
Qed.

(** The theorem at the instants 0, 0, 0 and 10. *)
Lemma two_per_ten_seconds_witness :
  fst (calls (init 2 10) [0; 0; 0; 10]) = [true; true; false; true].
Proof.
  apply (two_per_ten_seconds 0 0 0 10); unfold Qle, Qlt; simpl; lia.
Defined.

(** A third call less than ten seconds after the first can be admitted
    all the same: at the floats [0.1], [0.1], [10.1] the age of the first
    entry is computed as [10.0]. *)
Example rounded_age_admits :
  fst (calls (init 2 10)
         [Float64.f0_1; Float64.f0_1; Float64.f10_1; 11])
  = [true; true; true; true].
Proof. reflexivity. Qed.

(** *** Frame: what a call leaves alone *)

Lemma Qlt_bool_negb_Qle_bool (x y : Q) : Qlt_bool x y = negb (Qle_bool y x).
Proof.
  destruct (Qlt_bool_spec x y) as [H | H].
  - destruct (Qle_bool y x) eqn:E; [ | reflexivity ].
    apply Qle_bool_iff in E. exfalso. exact (Qlt_not_le _ _ H E).
  - apply Qle_bool_iff in H. now rewrite H.
Qed.

Lemma kept_is_purged (now : Q) (w : Z) (reqs : list Q) :
  filter (fun req => Qlt_bool (Float64.sub now req) (inject_Z w)) reqs
  = purge now w reqs.
Proof.
  unfold purge, aged_out. apply filter_ext. intro req.
  apply Qlt_bool_negb_Qle_bool.
Qed.

Lemma is_allowed_max_requests (now : Q) (self : RateLimit) :
  max_requests (snd (is_allowed now self)) = max_requests self.
Proof. unfold is_allowed. now destruct (_ >=? _)%Z. Qed.

Lemma is_allowed_time_window (now : Q) (self : RateLimit) :
  time_window (snd (is_allowed now self)) = time_window self.
Proof. unfold is_allowed. now destruct (_ >=? _)%Z. Qed.

(** C8. A call that answers false appends nothing: the stored timestamps
    are then exactly the former ones with those aged [time_window] or more
    removed. Every call leaves [max_requests] and [time_window] as they
    were. [is_allowed] is a total function with no error result: there is
    no raise to model. *)
Theorem refused_call_only_purges (now : Q) (self : RateLimit) :
  (fst (is_allowed now self) = false ->
   requests (snd (is_allowed now self))
   = purge now (time_window self) (requests self))
  /\ max_requests (snd (is_allowed now self)) = max_requests self
  /\ time_window (snd (is_allowed now self)) = time_window self.
Proof.
  split; [ | split ].
  - rewrite <- kept_is_purged. unfold is_allowed.
    destruct (_ >=? _)%Z; simpl; [ reflexivity | discriminate ].
  - apply is_allowed_max_requests.
  - apply is_allowed_time_window.
Qed.

(** A limiter of one request per ten seconds, holding the instant 0 and
    one aged out, asked at the instant 5. *)
Lemma refused_call_only_purges_witness :
  fst (is_allowed 5 (mk_RateLimit 1 10 [-7; 0])) = false
  /\ requests (snd (is_allowed 5 (mk_RateLimit 1 10 [-7; 0]))) = [0].
Proof.
  split; [ reflexivity | ].
  exact (proj1 (refused_call_only_purges 5 (mk_RateLimit 1 10 [-7; 0]))
               eq_refl).
Defined.

(** *** The stored timestamps *)

Lemma StronglySorted_filter_Qle (f : Q -> bool) (l : list Q) :
  StronglySorted Qle l -> StronglySorted Qle (filter f l).
Proof.
  induction 1 as [ | a l Hl IH Ha ]; simpl; [ constructor | ].
  destruct (f a); [ | exact IH ].
  constructor; [ exact IH | ].
  rewrite Forall_forall in *. intros x Hx.
  apply filter_In in Hx. now apply Ha.
Qed.

Lemma StronglySorted_snoc_Qle (l : list Q) (x : Q) :
  StronglySorted Qle l -> Forall (fun t => t <= x) l ->
  StronglySorted Qle (l ++ [x]).
Proof.
  induction 1 as [ | a l Hl IH Ha ]; intro Hx; simpl.
  - repeat constructor.
  - inversion Hx as [ | ? ? Hax Hlx ]; subst.
    constructor; [ now apply IH | ].
    apply Forall_app. split; [ exact Ha | now constructor ].
Qed.

Lemma is_allowed_ordered (last now : Q) (self : RateLimit) :
  last <= now -> ordered_upto last self ->
  ordered_upto now (snd (is_allowed now self)).
Proof.
  intros Hle [Hs Hb].
  set (f := fun req =>
              Qlt_bool (Float64.sub now req) (inject_Z (time_window self))).
  assert (Hb' : Forall (fun t => t <= now) (filter f (requests self))).
  { rewrite Forall_forall in *. intros x Hx. apply filter_In in Hx.
    apply Qle_trans with last; [ now apply Hb | exact Hle ]. }
  assert (Hs' : StronglySorted Qle (filter f (requests self)))
    by now apply StronglySorted_filter_Qle.
  unfold ordered_upto, is_allowed. fold f.
  destruct (_ >=? _)%Z; simpl.
  - now split.
  - split.
    + now apply StronglySorted_snoc_Qle.
    + apply Forall_app. split; [ exact Hb' | ].
      constructor; [ apply Qle_refl | constructor ].
Qed.

Lemma is_allowed_within_window (now : Q) (self : RateLimit) :
  (0 < time_window self)%Z ->
  Forall (fun t => Float64.sub now t < inject_Z (time_window self))
         (requests (snd (is_allowed now self))).
Proof.
  intro Hw.
  set (f := fun req =>
              Qlt_bool (Float64.sub now req) (inject_Z (time_window self))).
  assert (Hf : Forall (fun t => Float64.sub now t
                                < inject_Z (time_window self))
                      (filter f (requests self))).
  { rewrite Forall_forall. intros x Hx. apply filter_In in Hx.
    destruct Hx as [_ Hx]. now apply Qlt_bool_true. }
  unfold is_allowed. fold f. destruct (_ >=? _)%Z; simpl; [ exact Hf | ].
  apply Forall_app. split; [ exact Hf | ].
  constructor; [ | constructor ].
  rewrite sub_same. rewrite (Zlt_Qlt 0) in Hw. exact Hw.
Qed.

Lemma calls_cons (self : RateLimit) (now : Q) (later : list Q) :
  snd (calls self (now :: later))
  = snd (calls (snd (is_allowed now self)) later).
Proof.
  simpl. destruct (is_allowed now self) as [answer self1]. simpl.
  now destruct (calls self1 later).
Qed.

Lemma calls_ordered_within_window (earlier : list Q) :
  forall (self : RateLimit) (lo now : Q),
    (0 < time_window self)%Z ->
    ordered_upto lo self ->
    StronglySorted Qle (lo :: earlier ++ [now]) ->
    let after := snd (calls self (earlier ++ [now])) in
    StronglySorted Qle (requests after)
    /\ Forall (fun t => Float64.sub now t < inject_Z (time_window self))
              (requests after).
Proof.
  induction earlier as [ | a earlier IH ]; intros self lo now Hw Hinv Hs.
  - simpl app. rewrite calls_cons. simpl calls. simpl snd.
    inversion Hs as [ | ? ? _ Hlo ]; subst.
    inversion Hlo as [ | ? ? Hle _ ]; subst.
    split.
    + exact (proj1 (is_allowed_ordered lo now self Hle Hinv)).
    + now apply is_allowed_within_window.
  - simpl app. rewrite calls_cons.
    inversion Hs as [ | ? ? Hs' Hlo ]; subst.
    inversion Hlo as [ | ? ? Hle _ ]; subst.
    rewrite <- (is_allowed_time_window a self).
    apply (IH _ a).
    + now rewrite is_allowed_time_window.
    + now apply is_allowed_ordered with lo.
    + exact Hs'.
Qed.

Lemma new_limiter_ordered_within_window
    (m w : Z) (earlier : list Q) (now : Q) :
  (0 < w)%Z ->
  Sorted Qle (earlier ++ [now]) ->
  let after := snd (calls (init m w) (earlier ++ [now])) in
  Sorted Qle (requests after)
  /\ Forall (fun t => Float64.sub now t < inject_Z w) (requests after).
Proof.
  intros Hw Hs.
  assert (Htrans : Relations_1.Transitive Qle)
    by (intros x y z; apply Qle_trans).
  apply (Sorted_StronglySorted Htrans) in Hs.
  set (lo := hd now earlier).
  assert (Hlo : StronglySorted Qle (lo :: earlier ++ [now])).
  { constructor; [ exact Hs | ].
    destruct earlier as [ | a earlier ]; simpl in *.
    - constructor; [ apply Qle_refl | constructor ].
    - inversion Hs; subst. constructor; [ apply Qle_refl | assumption ]. }
  destruct (calls_ordered_within_window earlier (init m w) lo now Hw)
    as [H1 H2].
  - split; constructor.
  - exact Hlo.
  - split; [ now apply StronglySorted_Sorted | exact H2 ].
Qed.

(** C7, amended. For a limiter whose [time_window] is positive, called at
    nondecreasing clock readings: after every call the stored timestamps
    are in nondecreasing order and each one [t] satisfies
    [now - t < time_window] for the instant [now] of that call, the
    difference being the one the code computes. *)
Theorem requests_sorted_within_window
    (m w : Z) (earlier : list Q) (now : Q) :
  (0 < w)%Z ->
  Sorted Qle (earlier ++ [now]) ->
  let after := snd (calls (init m w) (earlier ++ [now])) in
  Sorted Qle (requests after)
  /\ Forall (fun t => Float64.sub now t < inject_Z w) (requests after).
Proof. exact (new_limiter_ordered_within_window m w earlier now). Qed.

(** Four calls to a limiter of two requests per ten seconds. *)
Lemma requests_sorted_within_window_witness :
  let after := snd (calls (init 2 10) [0; 1; 2; 11]) in
  Sorted Qle (requests after)
  /\ Forall (fun t => Float64.sub 11 t < inject_Z 10) (requests after).
Proof.
  apply (requests_sorted_within_window 2 10 [0; 1; 2] 11).
  - reflexivity.
  - repeat constructor; unfold Qle; simpl; lia.
Defined.

(** C7, as stated, fails for a limiter with [time_window = 0]: the call
    appends [now], whose age 0 is not below the window. *)
Lemma zero_window_stores_now :
  let after := snd (calls (init 1 0) [0]) in
  Sorted Qle [0]
  /\ ~ (Sorted Qle (requests after)
        /\ Forall (fun t => Float64.sub 0 t < inject_Z 0) (requests after)).
Proof.
  split; [ repeat constructor | ].
  intros [_ H]. simpl in H. inversion H as [ | ? ? H0 _ ]; subst.
  vm_compute in H0. discriminate.
Qed.

End LimiterFacts.

(** ** The string methods *)

Section StringFacts.
Import PyStr.

(** Induction two characters at a time, as [split_dot_space] recurses. *)
Lemma string_pair_ind (P : string -> Prop) :
  P EmptyString ->
  (forall c, P (String c EmptyString)) ->
  (forall c1 c2 s, P s -> P (String c2 s) -> P (String c1 (String c2 s))) ->
  forall s, P s.
Proof.
  intros H0 H1 H2 s.
  enough (H : P s /\ forall c, P (String c s)) by exact (proj1 H).
  induction s as [ | c2 s [IHs IHc] ].
  - split; [ exact H0 | exact H1 ].
  - split; [ apply IHc | ]. intro c1. apply H2; [ exact IHs | apply IHc ].
Qed.

(** One step of [split_dot_space], by the two cases of its scan. *)
Lemma split_dot_space_cons (c : ascii) (s : string) :
  split_dot_space (String c s)
  = if Ascii.eqb c dot && starts_with_space s
    then EmptyString :: split_dot_space (match s with
                                         | String _ rest => rest
                                         | EmptyString => EmptyString
                                         end)
    else match split_dot_space s with
         | p :: ps => String c p :: ps
         | [] => [String c EmptyString]
         end.
Proof.
  simpl. destruct (Ascii.eqb c dot); [ | reflexivity ].
  destruct s as [ | c2 rest ]; [ reflexivity | ].
  simpl. now destruct (Ascii.eqb c2 space).
Qed.

Lemma split_dot_space_not_nil (s : string) : split_dot_space s <> [].
Proof.
  destruct s as [ | c s ]; [ discriminate | ].
  rewrite split_dot_space_cons.
  destruct (_ && _); [ discriminate | ].
  destruct (split_dot_space s); discriminate.
Qed.

(** The first piece begins as the text does. *)
Lemma split_dot_space_head (s p : string) (ps : list string) :
  split_dot_space s = p :: ps ->
  starts_with_space p = true -> starts_with_space s = true.
Proof.
  destruct s as [ | c s ]; [ intro E; inversion E; subst; trivial | ].
  rewrite split_dot_space_cons.
  destruct (_ && _).
  - intro E; inversion E; subst. discriminate.
  - destruct (split_dot_space s); intro E; inversion E; subst; trivial.
Qed.

Lemma has_sep_tail (c : ascii) (s : string) :
  has_sep (String c s) = false -> has_sep s = false.
Proof. simpl. intro H. now apply orb_false_iff in H. Qed.

Lemma split_dot_space_no_sep (s : string) :
  has_sep s = false -> split_dot_space s = [s].
Proof.
  induction s as [ | c s IH ]; intro H; [ reflexivity | ].
  simpl in H. apply orb_false_iff in H. destruct H as [Hc Hs].
  rewrite split_dot_space_cons, Hc, (IH Hs). reflexivity.
Qed.

(** No piece of a split contains the separator. *)
Lemma split_dot_space_pieces (s : string) :
  Forall (fun p => has_sep p = false) (split_dot_space s).
Proof.
  induction s as [ | c | c1 c2 s IH1 IH2 ] using string_pair_ind.
  - repeat constructor.
  - rewrite split_dot_space_cons. simpl. rewrite andb_false_r.
    repeat constructor. simpl. now rewrite andb_false_r.
  - rewrite split_dot_space_cons.
    destruct (Ascii.eqb c1 dot && starts_with_space (String c2 s)) eqn:E.
    + constructor; [ reflexivity | exact IH1 ].
    + destruct (split_dot_space (String c2 s)) as [ | p ps ] eqn:Es;
        [ now elim (split_dot_space_not_nil (String c2 s)) | ].
      inversion IH2 as [ | ? ? Hp Hps ]; subst.
      constructor; [ | exact Hps ].
      simpl. rewrite Hp, orb_false_r.
      destruct (Ascii.eqb c1 dot); [ | reflexivity ]. simpl in *.
      destruct (starts_with_space p) eqn:Ep; [ | reflexivity ].
      rewrite <- E. symmetry.
      exact (split_dot_space_head (String c2 s) p ps Es Ep).
Qed.

Lemma has_sep_lstrip (s : string) :
  has_sep s = false -> has_sep (lstrip s) = false.
Proof.
  induction s as [ | c s IH ]; intro H; [ reflexivity | ].
  simpl. destruct (is_space c); [ | exact H ].
  apply IH. exact (has_sep_tail c s H).
Qed.

Lemma rstrip_head (s r : string) (c : ascii) :
  rstrip s = String c r -> exists s', s = String c s'.
Proof.
  destruct s as [ | c0 s ]; [ discriminate | ].
  simpl. destruct (rstrip s); [ destruct (is_space c0) | ];
    intro E; inversion E; subst; now exists s.
Qed.

Lemma has_sep_rstrip (s : string) :
  has_sep s = false -> has_sep (rstrip s) = false.
Proof.
  induction s as [ | c s IH ]; intro H; [ reflexivity | ].
  simpl in H. apply orb_false_iff in H. destruct H as [Hc Hs].
  specialize (IH Hs). simpl.
  destruct (rstrip s) as [ | c2 r ] eqn:E.
  - destruct (is_space c); [ reflexivity | ].
    simpl. now rewrite andb_false_r.
  - change (has_sep (String c (String c2 r)))
      with ((Ascii.eqb c dot && Ascii.eqb c2 space)
            || has_sep (String c2 r)).
    rewrite IH, orb_false_r.
    destruct (rstrip_head s r c2 E) as [s' ->]. exact Hc.
Qed.

Lemma has_sep_strip (s : string) :
  has_sep s = false -> has_sep (strip s) = false.
Proof. intro H. apply has_sep_rstrip. now apply has_sep_lstrip. Qed.

(** Splitting stops at a separator that follows separator-free text. *)
Lemma split_dot_space_app (s t : string) :
  has_sep s = false ->
  split_dot_space (s ++ ". " ++ t) = s :: split_dot_space t.
Proof.
  induction s as [ | c s IH ]; intro H; [ reflexivity | ].
  simpl in H. apply orb_false_iff in H. destruct H as [Hc Hs].
  change (String c s ++ ". " ++ t)%string
    with (String c (s ++ ". " ++ t)).
  rewrite split_dot_space_cons, (IH Hs).
  replace (Ascii.eqb c dot && starts_with_space (s ++ ". " ++ t))
    with false; [ reflexivity | ].
  destruct s as [ | c2 s ]; [ simpl; now rewrite andb_false_r | ].
  symmetry. exact Hc.
Qed.

Lemma split_dot_space_join (g : list string) :
  g <> [] -> Forall (fun p => has_sep p = false) g ->
  split_dot_space (join ". " g) = g.
Proof.
  induction g as [ | x g IH ]; intros Hne Hg; [ now elim Hne | ].
  inversion Hg as [ | ? ? Hx Hg' ]; subst.
  destruct g as [ | y g ].
  - simpl. now apply split_dot_space_no_sep.
  - change (join ". " (x :: y :: g))
      with (x ++ ". " ++ join ". " (y :: g))%string.
    rewrite (split_dot_space_app _ _ Hx), IH; [ reflexivity | | exact Hg' ].
    discriminate.
Qed.

Lemma drop_last_snoc (s : string) (c : ascii) :
  drop_last (s ++ String c EmptyString) = s.
Proof.
  induction s as [ | a s IH ]; [ reflexivity | ].
  simpl. rewrite IH. now destruct s.
Qed.

Lemma last_char_snoc (s : string) (c : ascii) :
  last_char (s ++ String c EmptyString) = Some c.
Proof.
  induction s as [ | a s IH ]; [ reflexivity | ].
  simpl. rewrite IH. now destruct s.
Qed.

Lemma len_append (s t : string) : len (s ++ t) = len s + len t.
Proof.
  unfold len. induction s as [ | c s IH ]; [ reflexivity | ].
  simpl String.length. lia.
Qed.

End StringFacts.

(** ** The chunker *)

Section ChunkerFacts.
Import PyStr Chunker.

Lemma unflush_flush (g : list string) :
  g <> [] -> Forall (fun p => has_sep p = false) g -> unflush (flush g) = g.
Proof.
  intros Hne Hg. unfold unflush, flush.
  rewrite drop_last_snoc. now apply split_dot_space_join.
Qed.

(** The sentences read back from the chunks of a state and its pending
    accumulator. *)
Lemma unflush_flush_into (done pending : list string) :
  Forall (fun p => has_sep p = false) pending ->
  concat (map unflush (flush_into done pending))
  = concat (map unflush done) ++ pending.
Proof.
  intro Hp. destruct pending as [ | x pending ]; simpl.
  - now rewrite app_nil_r.
  - rewrite map_app, concat_app. simpl.
    rewrite unflush_flush, app_nil_r; [ reflexivity | discriminate | exact Hp ].
Qed.

Lemma loop_preserves_sentences (max_chars : Z) (pieces : list string) :
  forall st : loop_state,
    Forall (fun p => has_sep p = false) pieces ->
    Forall (fun p => has_sep p = false) (current_chunk st) ->
    let st' := fold_left (loop_body max_chars) pieces st in
    concat (map unflush (flush_into (chunks st') (current_chunk st')))
    = concat (map unflush (flush_into (chunks st) (current_chunk st)))
      ++ filter (fun s => negb (is_empty s)) (map strip pieces).
Proof.
  induction pieces as [ | p pieces IH ]; intros st Hps Hcur.
  - simpl. now rewrite app_nil_r.
  - inversion Hps as [ | ? ? Hp Hps' ]; subst.
    pose proof (has_sep_strip p Hp) as Hsp.
    simpl fold_left. simpl map. simpl filter.
    unfold loop_body at 2.
    destruct (is_empty (strip p)) eqn:Ee; simpl negb; cbv iota.
    + now apply IH.
    + destruct (current_length st + len (strip p) + 2 <=? max_chars).
      * rewrite IH; [ | exact Hps' | ].
        2:{ simpl. apply Forall_app. split; [ exact Hcur | now constructor ]. }
        simpl chunks. simpl current_chunk.
        rewrite !unflush_flush_into; try assumption.
        2:{ apply Forall_app. split; [ exact Hcur | now constructor ]. }
        rewrite <- !app_assoc. reflexivity.
      * rewrite IH; [ | exact Hps' | simpl; now constructor ].
        simpl chunks. simpl current_chunk.
        rewrite (unflush_flush_into _ [strip p]); [ | now constructor ].
        rewrite <- !app_assoc. reflexivity.
Qed.

(** C4. Reading the chunks back, each with its appended period dropped and
    split at the restored separators, gives in order exactly the non-empty
    trimmed sentences of the text: newlines turned into spaces, split at
    ['. '], each piece trimmed, the empty ones left out. *)
Theorem chunks_preserve_sentences (text : string) (max_chars : Z) :
  concat (map unflush (chunk_text text max_chars)) = sentences_of text.
Proof.
  unfold chunk_text, sentences_of.
  rewrite loop_preserves_sentences.
  - reflexivity.
  - apply split_dot_space_pieces.
  - constructor.
Qed.

(** C9. The empty text has no chunk, whatever the limit. *)
Theorem chunk_text_empty (max_chars : Z) : chunk_text "" max_chars = [].
Proof. reflexivity. Qed.

(** *** The shape of a chunk *)

Lemma flush_shape (g : list string) :
  flush g <> "" /\ last_char (flush g) = Some dot.
Proof.
  unfold flush. split; [ | apply last_char_snoc ].
  intro E. apply (f_equal last_char) in E.
  rewrite last_char_snoc in E. discriminate.
Qed.

Lemma flush_into_shape (done pending : list string) :
  Forall (fun c => c <> "" /\ last_char c = Some dot) done ->
  Forall (fun c => c <> "" /\ last_char c = Some dot)
         (flush_into done pending).
Proof.
  intro Hd. destruct pending as [ | x pending ]; [ exact Hd | ].
  simpl. apply Forall_app. split; [ exact Hd | ].
  constructor; [ apply flush_shape | constructor ].
Qed.

Lemma loop_shape (max_chars : Z) (pieces : list string) :
  forall st : loop_state,
    Forall (fun c => c <> "" /\ last_char c = Some dot) (chunks st) ->
    Forall (fun c => c <> "" /\ last_char c = Some dot)
           (chunks (fold_left (loop_body max_chars) pieces st)).
Proof.
  induction pieces as [ | p pieces IH ]; intros st Hst; [ exact Hst | ].
  simpl. apply IH. unfold loop_body.
  destruct (is_empty (strip p)); [ exact Hst | ].
  destruct (_ <=? _); simpl; [ exact Hst | ].
  now apply flush_into_shape.
Qed.

(** *** Text with nothing to say *)

Lemma is_space_not_dot (c : ascii) :
  is_space c = true -> Ascii.eqb c dot = false.
Proof.
  intro H. destruct (Ascii.eqb_spec c dot) as [-> | _];
    [ discriminate | reflexivity ].
Qed.

Lemma is_space_normalized (c : ascii) :
  is_space c = true ->
  is_space (if Ascii.eqb c newline then space else c) = true.
Proof. intro H. now destruct (Ascii.eqb c newline). Qed.

Lemma strip_space_cons (c : ascii) (s : string) :
  is_space c = true -> strip (String c s) = strip s.
Proof. intro H. unfold strip. simpl. now rewrite H. Qed.

Lemma split_dot_space_space_cons (c : ascii) (t : string) :
  is_space c = true ->
  Forall (fun p => strip p = "") (split_dot_space t) ->
  Forall (fun p => strip p = "") (split_dot_space (String c t)).
Proof.
  intros Hc Ht. rewrite split_dot_space_cons, (is_space_not_dot c Hc).
  simpl. destruct (split_dot_space t) as [ | p ps ].
  - constructor; [ now rewrite strip_space_cons | constructor ].
  - inversion Ht as [ | ? ? Hp Hps ]; subst.
    constructor; [ now rewrite strip_space_cons | exact Hps ].
Qed.

Lemma blank_pieces (s : string) :
  blank s = true ->
  Forall (fun p => strip p = "")
         (split_dot_space (replace newline space s)).
Proof.
  induction s as [ | c | c1 c2 s IH1 IH2 ] using string_pair_ind.
  - intros _. repeat constructor.
  - intro Hb. simpl in Hb.
    destruct (is_space c) eqn:Hc;
      [ | destruct (Ascii.eqb c dot); discriminate ].
    change (replace newline space (String c ""))
      with (String (if Ascii.eqb c newline then space else c) "").
    apply split_dot_space_space_cons.
    + now apply is_space_normalized.
    + repeat constructor.
  - change (blank (String c1 (String c2 s)))
      with (if is_space c1 then blank (String c2 s)
            else if Ascii.eqb c1 dot
                 then (Ascii.eqb c2 space || Ascii.eqb c2 newline) && blank s
                 else false).
    change (replace newline space (String c1 (String c2 s)))
      with (String (if Ascii.eqb c1 newline then space else c1)
                   (replace newline space (String c2 s))).
    destruct (is_space c1) eqn:Hc1.
    + intro Hb. apply split_dot_space_space_cons.
      * now apply is_space_normalized.
      * now apply IH2.
    + destruct (Ascii.eqb_spec c1 dot) as [-> | _]; [ | discriminate ].
      intro Hb. apply andb_true_iff in Hb. destruct Hb as [Hc2 Hb].
      assert (E : (if Ascii.eqb c2 newline then space else c2) = space).
      { destruct (Ascii.eqb_spec c2 newline) as [_ | _]; [ reflexivity | ].
        rewrite orb_false_r in Hc2. now apply Ascii.eqb_eq in Hc2. }
      simpl. rewrite E. simpl.
      constructor; [ reflexivity | now apply IH1 ].
Qed.

Lemma loop_skips_blank (max_chars : Z) (pieces : list string) :
  forall st : loop_state,
    Forall (fun p => strip p = "") pieces ->
    fold_left (loop_body max_chars) pieces st = st.
Proof.
  induction pieces as [ | p pieces IH ]; intros st Hp; [ reflexivity | ].
  inversion Hp as [ | ? ? Hp1 Hp2 ]; subst.
  simpl. unfold loop_body at 2. rewrite Hp1. simpl. now apply IH.
Qed.

(** C10. Every chunk is a non-empty string whose last character is a
    period; a text made only of whitespace, newlines and bare separators (a
    period followed by a space or a newline) has no chunk. *)
Theorem chunks_end_with_period (text : string) (max_chars : Z) :
  Forall (fun chunk => chunk <> "" /\ last_char chunk = Some dot)
         (chunk_text text max_chars)
  /\ (blank text = true -> chunk_text text max_chars = []).
Proof.
  split.
  - unfold chunk_text. apply flush_into_shape, loop_shape. constructor.
  - intro Hb. unfold chunk_text.
    rewrite loop_skips_blank; [ reflexivity | now apply blank_pieces ].
Qed.

(** Spaces, a tab, newlines and three bare separators. *)
Lemma chunks_end_with_period_witness :
  blank (String "009" " . . " ++ String newline "." ++ String newline " ")
  = true
  /\ chunk_text
       (String "009" " . . " ++ String newline "." ++ String newline " ")
       default_max_chars = [].
Proof.
  split; [ reflexivity | ].
  apply (proj2 (chunks_end_with_period
                  (String "009" " . . " ++ String newline "."
                   ++ String newline " ")
                  default_max_chars)).
  reflexivity.
Defined.

(** *** The documented example *)

(** C2. On ["Hello world. This is a test. Short."] with [max_chars = 15]
    the last chunk is ["Short.."]: the last sentence keeps the period the
    split never removed, and [flush] appends another. *)
Theorem hello_world_chunks :
  chunk_text "Hello world. This is a test. Short." 15
  = ["Hello world."; "This is a test."; "Short.."].
Proof. reflexivity. Qed.

(** *** The length of a chunk *)

Lemma len_nonneg (s : string) : 0 <= len s.
Proof. unfold len. lia. Qed.

Lemma len_join_snoc (sep : string) (g : list string) (x : string) :
  g <> [] -> len (join sep (g ++ [x])) = len (join sep g) + len sep + len x.
Proof.
  induction g as [ | a g IH ]; intro Hne; [ now elim Hne | ].
  destruct g as [ | b g ].
  - simpl. rewrite !len_append. lia.
  - change (join sep ((a :: b :: g) ++ [x]))
      with (a ++ sep ++ join sep ((b :: g) ++ [x]))%string.
    change (join sep (a :: b :: g))
      with (a ++ sep ++ join sep (b :: g))%string.
    rewrite !len_append, IH by discriminate. lia.
Qed.

Lemma flush_into_bounded (all : list string) (max_chars : Z)
    (st : loop_state) :
  Forall (bounded all max_chars) (chunks st) ->
  pending_ok all max_chars st ->
  Forall (bounded all max_chars)
         (flush_into (chunks st) (current_chunk st)).
Proof.
  intros Hd [_ Hp]. destruct (current_chunk st) as [ | x g ] eqn:E;
    [ exact Hd | ].
  simpl. apply Forall_app. split; [ exact Hd | ].
  constructor; [ | constructor ].
  destruct Hp as [Hlen [Hle | [s [Hin [Hs Hbig]]]]]; [ discriminate | | ].
  - left. unfold flush. rewrite len_append.
    change (len ".") with 1. lia.
  - right. exists s. rewrite Hs. now repeat split.
Qed.

Lemma loop_bounded (all : list string) (max_chars : Z)
    (pieces : list string) :
  forall st : loop_state,
    (forall p, In p pieces -> is_empty (strip p) = false ->
               In (strip p) all) ->
    Forall (bounded all max_chars) (chunks st) ->
    pending_ok all max_chars st ->
    let st' := fold_left (loop_body max_chars) pieces st in
    Forall (bounded all max_chars) (chunks st')
    /\ pending_ok all max_chars st'.
Proof.
  induction pieces as [ | p pieces IH ]; intros st Hall Hd Hp;
    [ now split | ].
  simpl fold_left. apply IH.
  - intros q Hq. apply Hall. now right.
  - unfold loop_body. destruct (is_empty (strip p)); [ exact Hd | ].
    destruct (_ <=? _); simpl; [ exact Hd | ].
    now apply flush_into_bounded.
  - assert (Hin : is_empty (strip p) = false -> In (strip p) all)
      by (apply Hall; now left).
    pose proof (len_nonneg (strip p)) as Hn.
    unfold loop_body. destruct (is_empty (strip p)); [ exact Hp | ].
    destruct Hp as [H0 Hp].
    destruct (Z.leb_spec (current_length st + len (strip p) + 2) max_chars)
      as [Hfit | Hover]; unfold pending_ok; simpl.
    + split; [ lia | ]. intros _. split; [ | now left ].
      destruct (current_chunk st) as [ | x g ] eqn:E; [ simpl; lia | ].
      rewrite len_join_snoc by discriminate. change (len ". ") with 2.
      destruct Hp as [Hlen _]; [ discriminate | ]. lia.
    + split; [ lia | ]. intros _. split; [ lia | ].
      destruct (Z.le_gt_cases (len (strip p)) max_chars) as [Hle | Hgt];
        [ now left | right ].
      exists (strip p). split; [ now apply Hin | split; [ reflexivity | lia ] ].
Qed.

(** X19. Every chunk is within the limit plus one character, or is one
    sentence of the text that is itself longer than the limit. *)
Lemma chunk_length_bound (text : string) (max_chars : Z) :
  Forall (bounded (sentences_of text) max_chars) (chunk_text text max_chars).
Proof.
  unfold chunk_text.
  set (pieces := split_dot_space (replace newline space text)).
  destruct (loop_bounded (sentences_of text) max_chars pieces
              (mk_loop [] [] 0)) as [Hd Hp].
  - intros p Hp He. unfold sentences_of. fold pieces.
    apply filter_In. split; [ now apply in_map | now rewrite He ].
  - constructor.
  - split; simpl; [ lia | intro H; now elim H ].
  - now apply flush_into_bounded.
Qed.

(** C1. On ["aaaa. bbbb. cccc"] with [max_chars = 10] the second chunk
    joins two sentences of four characters each and is eleven characters
    long: the running length of a chunk opened after a flush leaves out the
    two characters counted for every other sentence, and the appended
    period is counted nowhere. *)
Theorem chunk_over_limit :
  chunk_text "aaaa. bbbb. cccc" 10 = ["aaaa."; "bbbb. cccc."]
  /\ len "bbbb. cccc." = 11
  /\ ~ within_limit "aaaa. bbbb. cccc" 10 "bbbb. cccc.".
Proof.
  split; [ reflexivity | split; [ reflexivity | ] ].
  intros [Hle | [s [Hin [_ Hbig]]]].
  - revert Hle. change (len "bbbb. cccc.") with 11. lia.
  - simpl in Hin.
    destruct Hin as [<- | [<- | [<- | []]]];
      vm_compute in Hbig; discriminate.
Qed.

End ChunkerFacts.

(** ** Speech synthesis *)

Section SpeechFacts.
Import PyStr Chunker Limiter Speech.

Variable World : Type.
Variable clock : World -> Q.
Variable generate :
  World -> string -> string -> string -> World * (failure + bytes).
Variable sleep : Q -> World -> World.

Lemma synthesize_no_limiter_check (todo : list string) :
  forall voice total i acc w,
    Forall (fun e => is_limiter_check e = false)
           (snd (fst (synthesize World generate sleep voice total i todo acc w))).
Proof.
  induction todo as [ | chunk todo IH ]; intros voice total i acc w;
    [ constructor | ].
  simpl. destruct (generate w chunk voice model_id) as [w1 [e | audio]].
  - repeat constructor.
  - specialize (IH voice total (i + 1)%Z (acc ++ [audio]) (sleep pause w1)).
    destruct (synthesize _ _ _ _ _ _ todo _ _) as [[w2 evs] res].
    repeat constructor. exact IH.
Qed.

Lemma synthesize_success (todo : list string) :
  forall voice total i acc w segments,
    snd (synthesize World generate sleep voice total i todo acc w) = inr segments ->
    submitted (snd (fst (synthesize World generate sleep voice total i todo acc w))) = todo
    /\ List.length segments = (List.length acc + List.length todo)%nat.
Proof.
  induction todo as [ | chunk todo IH ];
    intros voice total i acc w segments.
  - simpl. intro E. inversion E; subst. split; [ reflexivity | lia ].
  - simpl. destruct (generate w chunk voice model_id) as [w1 [e | audio]];
      [ discriminate | ].
    specialize (IH voice total (i + 1)%Z (acc ++ [audio]) (sleep pause w1)
                   segments).
    destruct (synthesize _ _ _ _ _ _ todo _ _) as [[w2 evs] res].
    simpl in *. intro E. destruct (IH E) as [H1 H2].
    split; [ now rewrite H1 | ].
    rewrite H2, length_app. simpl. lia.
Qed.

Lemma synthesize_failure (todo : list string) :
  forall voice total i acc w pre chunk v m f post,
    snd (fst (synthesize World generate sleep voice total i todo acc w))
    = pre ++ Generate chunk v m (inl f) :: post ->
    snd (synthesize World generate sleep voice total i todo acc w)
    = inl (Exception ("Error generating audio: " ++ message f))
    /\ submitted post = []
    /\ exists later, todo = submitted pre ++ chunk :: later.
Proof.
  induction todo as [ | c todo IH ];
    intros voice total i acc w pre chunk v m f post.
  - simpl. intro E. now destruct pre.
  - simpl. destruct (generate w c voice model_id) as [w1 [e | audio]].
    + simpl. intro E.
      destruct pre as [ | e1 [ | e2 [ | e3 pre ] ] ];
        inversion E; subst; try now destruct pre.
      split; [ reflexivity | split; [ reflexivity | ] ].
      now exists todo.
    + specialize (IH voice total (i + 1)%Z (acc ++ [audio]) (sleep pause w1)).
      destruct (synthesize _ _ _ _ _ _ todo _ _) as [[w2 evs] res].
      simpl in *. intro E.
      destruct pre as [ | e1 [ | e2 [ | e3 pre ] ] ];
        inversion E; subst.
      destruct (IH pre chunk v m f post eq_refl) as [H1 [H2 [later H3]]].
      split; [ exact H1 | split; [ exact H2 | ] ].
      exists later. simpl. now rewrite H3.
Qed.

(** C5. One invocation consults the rate limiter once, first of all,
    with the clock reading of its start. Refused, it raises the rate-limit
    error and does nothing more: no chunking, no request. Admitted, it
    chunks the text and makes no further check: the limiter is left as that
    one call left it, and a run that returns has submitted every chunk. *)
Theorem limiter_consulted_once (text voice : string)
    (self : PDFAudioReader) (w : World) :
  let o := text_to_speech World clock generate sleep text voice self w in
  let a := is_allowed (clock w) (rate_limiter self) in
  hd_error (events o) = Some (IsAllowed (clock w) (fst a))
  /\ Forall (fun e => is_limiter_check e = false) (tl (events o))
  /\ rate_limiter (self' o) = snd a
  /\ (if fst a then
        hd_error (tl (events o)) = Some (ChunkText text)
        /\ match result o with
           | inr segments =>
               submitted (events o) = chunk_text text default_max_chars
               /\ List.length segments
                  = List.length (chunk_text text default_max_chars)
           | inl _ => True
           end
      else
        tl (events o) = []
        /\ result o = inl (Exception rate_limit_message)).
Proof.
  unfold text_to_speech.
  destruct (is_allowed (clock w) (rate_limiter self)) as [allowed limiter].
  destruct allowed; simpl negb; cbv iota.
  - set (chunks := chunk_text text default_max_chars).
    pose proof (synthesize_no_limiter_check chunks voice
                  (Z.of_nat (List.length chunks)) 0%Z [] w) as Hno.
    pose proof (synthesize_success chunks voice
                  (Z.of_nat (List.length chunks)) 0%Z [] w) as Hok.
    destruct (synthesize _ _ _ _ _ _ chunks _ _) as [[w1 evs] res].
    simpl in *. repeat split.
    + constructor; [ reflexivity | exact Hno ].
    + destruct res as [e | segments]; [ exact I | ].
      destruct (Hok segments eq_refl) as [H1 H2]. now split.
  - simpl. repeat split. constructor.
Qed.

(** A reader whose limiter admits nothing: the invocation asks once and
    raises, submitting nothing. *)
Example refused_invocation (w : World) :
  let o := text_to_speech World clock generate sleep "One. Two." "Rachel"
             (mk_reader "key" (init 0 3600)) w in
  events o = [IsAllowed (clock w) false]
  /\ result o = inl (Exception rate_limit_message).
Proof. split; reflexivity. Qed.

(** C6. If the service fails on a chunk, the invocation raises an error
    carrying the message of that failure, and that chunk is the last one
    submitted: the chunks submitted are the first ones of the text, up to
    the failing one, and no audio is returned. *)
Theorem failed_chunk_aborts (text voice : string) (self : PDFAudioReader)
    (w : World) (pre post : list event) (chunk v m : string) (f : failure) :
  let o := text_to_speech World clock generate sleep text voice self w in
  events o = pre ++ Generate chunk v m (inl f) :: post ->
  result o
  = inl (Exception ("Error generating audio: " ++ message f))
  /\ submitted post = []
  /\ exists later,
       chunk_text text default_max_chars = submitted pre ++ chunk :: later.
Proof.
  unfold text_to_speech.
  destruct (is_allowed (clock w) (rate_limiter self)) as [allowed limiter].
  destruct allowed; simpl negb; cbv iota.
  - set (chunks := chunk_text text default_max_chars).
    pose proof (synthesize_failure chunks voice
                  (Z.of_nat (List.length chunks)) 0%Z [] w) as Hfail.
    destruct (synthesize _ _ _ _ _ _ chunks _ _) as [[w1 evs] res].
    simpl in *. intro E.
    destruct pre as [ | e1 [ | e2 pre ] ]; inversion E; subst.
    exact (Hfail pre chunk v m f post eq_refl).
  - simpl. intro E.
    destruct pre as [ | e1 pre ]; inversion E; subst. now destruct pre.
Qed.

End SpeechFacts.

(** In the sample world the second of three chunks fails: the first two
    chunks are submitted, the third never. *)
Lemma failed_chunk_aborts_witness :
  Speech.result (Speech.text_to_speech nat Speech.Sample.clock
            Speech.Sample.generate Speech.Sample.sleep
            Speech.Sample.text "Rachel" Speech.Sample.reader 0%nat)
  = inl (Speech.Exception "Error generating audio: quota exceeded")
  /\ exists later,
       Chunker.chunk_text Speech.Sample.text Chunker.default_max_chars
       = [Chunker.flush [Speech.Sample.repeat_char "a" 1500];
          Chunker.flush [Speech.Sample.repeat_char "b" 1500]] ++ later.
Proof.
  destruct (failed_chunk_aborts nat Speech.Sample.clock
              Speech.Sample.generate Speech.Sample.sleep
              Speech.Sample.text "Rachel" Speech.Sample.reader 0%nat
              [Speech.IsAllowed 0 true;
               Speech.ChunkText Speech.Sample.text;
               Speech.Progress 1 3;
               Speech.Generate
                 (Chunker.flush [Speech.Sample.repeat_char "a" 1500])
                 "Rachel" Speech.model_id (inr [Byte.x49; Byte.x44]);
               Speech.Sleep Speech.pause;
               Speech.Progress 2 3]
              [Speech.LogError
                 ("Audio generation error: quota exceeded"
                  ++ String PyStr.newline
                       "Traceback (most recent call last)")]
              (Chunker.flush [Speech.Sample.repeat_char "b" 1500])
              "Rachel" Speech.model_id Speech.Sample.quota)
    as [Hres [_ [later Hlater]]].
  - vm_compute. reflexivity.
  - split; [ exact Hres | ]. exists later. exact Hlater.
Defined.

(** ** More on the chunker *)

Section ChunkerMore.
Import PyStr Chunker.

(** The sentences read back from the chunks, for any text and limit. *)
Lemma unflush_chunk_text (text : string) (max_chars : Z) :
  concat (map unflush (chunk_text text max_chars)) = sentences_of text.
Proof.
  unfold chunk_text, sentences_of.
  rewrite loop_preserves_sentences;
    [ reflexivity | apply split_dot_space_pieces | constructor ].
Qed.

Lemma length_concat_nonempty (A : Type) (ls : list (list A)) :
  Forall (fun l => l <> []) ls ->
  (List.length ls <= List.length (concat ls))%nat.
Proof.
  induction 1 as [ | l ls Hl _ IH ]; simpl; [ lia | ].
  rewrite length_app. destruct l; [ now elim Hl | simpl; lia ].
Qed.

(** X1. There are never more chunks than sentences, and there is no chunk
    exactly when the text has no sentence. *)
Theorem chunk_count (text : string) (max_chars : Z) :
  (List.length (chunk_text text max_chars)
   <= List.length (sentences_of text))%nat
  /\ (chunk_text text max_chars = [] <-> sentences_of text = []).
Proof.
  assert (H : (List.length (chunk_text text max_chars)
               <= List.length (sentences_of text))%nat).
  { rewrite <- (unflush_chunk_text text max_chars).
    rewrite <- (length_map unflush) at 1.
    apply length_concat_nonempty.
    apply Forall_forall. intros l Hl. apply in_map_iff in Hl.
    destruct Hl as [c [<- _]]. apply split_dot_space_not_nil. }
  split; [ exact H | split; intro E ].
  - rewrite <- (unflush_chunk_text text max_chars), E. reflexivity.
  - rewrite E in H. destruct (chunk_text text max_chars);
      [ reflexivity | simpl in H; lia ].
Qed.

(** *** A sentence longer than the limit *)

Lemma loop_body_length_nonneg (max_chars : Z) (st : loop_state)
    (p : string) :
  0 <= current_length st -> 0 <= current_length (loop_body max_chars st p).
Proof.
  intro H. pose proof (len_nonneg (strip p)). unfold loop_body.
  destruct (is_empty (strip p)); [ exact H | ].
  destruct (_ <=? _); simpl; lia.
Qed.

Lemma loop_body_keeps_closed (max_chars : Z) (s : string)
    (st : loop_state) (p : string) :
  closed_alone max_chars s st ->
  closed_alone max_chars s (loop_body max_chars st p).
Proof.
  intro Hc. pose proof (len_nonneg (strip p)) as Hn. unfold loop_body.
  destruct (is_empty (strip p)); [ exact Hc | ].
  destruct (Z.leb_spec (current_length st + len (strip p) + 2) max_chars)
    as [Hfit | Hover].
  - destruct Hc as [Hin | [_ Hbig]]; [ now left | lia ].
  - left. simpl.
    destruct Hc as [Hin | [Hcur _]].
    + destruct (current_chunk st); simpl; [ exact Hin | ].
      apply in_or_app. now left.
    + rewrite Hcur. simpl. apply in_or_app. right. now left.
Qed.

Lemma loop_body_opens_alone (max_chars : Z) (st : loop_state)
    (p : string) :
  0 <= current_length st ->
  is_empty (strip p) = false ->
  max_chars < len (strip p) ->
  closed_alone max_chars (strip p) (loop_body max_chars st p).
Proof.
  intros H0 He Hbig. unfold loop_body. rewrite He.
  destruct (Z.leb_spec (current_length st + len (strip p) + 2) max_chars)
    as [Hfit | Hover]; [ lia | ].
  right. simpl. now split.
Qed.

Lemma loop_keeps_closed (max_chars : Z) (s : string)
    (pieces : list string) :
  forall st : loop_state,
    closed_alone max_chars s st ->
    closed_alone max_chars s (fold_left (loop_body max_chars) pieces st).
Proof.
  induction pieces as [ | p pieces IH ]; intros st Hc; [ exact Hc | ].
  simpl. apply IH. now apply loop_body_keeps_closed.
Qed.

Lemma loop_closes_long_sentence (max_chars : Z) (s : string)
    (pieces : list string) :
  forall st : loop_state,
    0 <= current_length st ->
    In s (filter (fun x => negb (is_empty x)) (map strip pieces)) ->
    max_chars < len s ->
    closed_alone max_chars s (fold_left (loop_body max_chars) pieces st).
Proof.
  induction pieces as [ | p pieces IH ]; intros st H0 Hin Hbig;
    [ now elim Hin | ].
  simpl in Hin. simpl fold_left.
  destruct (is_empty (strip p)) eqn:He; simpl in Hin.
  - apply IH; [ now apply loop_body_length_nonneg | exact Hin | exact Hbig ].
  - destruct Hin as [<- | Hin].
    + apply loop_keeps_closed. now apply loop_body_opens_alone.
    + apply IH;
        [ now apply loop_body_length_nonneg | exact Hin | exact Hbig ].
Qed.

(** X2. A sentence longer than the limit is not rejected, cut or merged:
    it comes out as a chunk of its own, the sentence followed by a
    period. *)
Theorem long_sentence_alone (text : string) (max_chars : Z) (s : string) :
  In s (sentences_of text) ->
  max_chars < len s ->
  In (s ++ ".")%string (chunk_text text max_chars).
Proof.
  intros Hin Hbig. unfold chunk_text.
  destruct (loop_closes_long_sentence max_chars s
              (split_dot_space (replace newline space text))
              (mk_loop [] [] 0)) as [Hc | [Hc _]];
    [ simpl; lia | exact Hin | exact Hbig | | ].
  - destruct (current_chunk _); simpl; [ exact Hc | ].
    apply in_or_app. now left.
  - rewrite Hc. simpl. apply in_or_app. right. now left.
Qed.

(** A sentence of twelve characters against a limit of ten. *)
Lemma long_sentence_alone_witness :
  In "bbbbbbbbbbbb." (chunk_text "aa. bbbbbbbbbbbb. cc" 10).
Proof.
  apply (long_sentence_alone "aa. bbbbbbbbbbbb. cc" 10 "bbbbbbbbbbbb").
  - simpl. right. now left.
  - reflexivity.
Defined.

(** *** A text that fits, and a limit too small to join anything *)

Lemma budget_nonneg (g : list string) : 0 <= budget g.
Proof.
  induction g as [ | s g IH ]; simpl; [ lia | ].
  pose proof (len_nonneg s). lia.
Qed.

Lemma budget_app (g h : list string) : budget (g ++ h) = budget g + budget h.
Proof. induction g as [ | s g IH ]; simpl; lia. Qed.

Lemma loop_fits (max_chars : Z) (pieces : list string) :
  forall st : loop_state,
    current_length st = budget (current_chunk st) ->
    budget (current_chunk st)
    + budget (filter (fun x => negb (is_empty x)) (map strip pieces))
    <= max_chars ->
    let st' := fold_left (loop_body max_chars) pieces st in
    chunks st' = chunks st
    /\ current_chunk st'
       = current_chunk st
         ++ filter (fun x => negb (is_empty x)) (map strip pieces).
Proof.
  induction pieces as [ | p pieces IH ]; intros st Hlen Hfit.
  - simpl. now rewrite app_nil_r.
  - simpl in Hfit. simpl fold_left. simpl map. simpl filter.
    unfold loop_body at 2.
    destruct (is_empty (strip p)) eqn:He; simpl negb in *; cbv iota in *.
    + now apply IH.
    + simpl budget in Hfit.
      pose proof (budget_nonneg
                    (filter (fun x => negb (is_empty x)) (map strip pieces))).
      destruct (Z.leb_spec (current_length st + len (strip p) + 2) max_chars)
        as [_ | Hover]; [ | lia ].
      destruct (IH (mk_loop (chunks st) (current_chunk st ++ [strip p])
                            (current_length st + len (strip p) + 2)))
        as [H1 H2].
      * simpl. rewrite budget_app, Hlen. simpl. lia.
      * simpl. rewrite budget_app. simpl. lia.
      * split; [ exact H1 | ]. rewrite H2. simpl.
        now rewrite <- app_assoc.
Qed.

(** X3. A text with at least one sentence, whose sentences with two
    characters charged for each fit the limit, makes one chunk: all its
    sentences joined by ['. '] and closed by a period. *)
Theorem fitting_text_one_chunk (text : string) (max_chars : Z) :
  sentences_of text <> [] ->
  budget (sentences_of text) <= max_chars ->
  chunk_text text max_chars = [flush (sentences_of text)].
Proof.
  intros Hne Hfit. unfold chunk_text.
  destruct (loop_fits max_chars
              (split_dot_space (replace newline space text))
              (mk_loop [] [] 0)) as [H1 H2];
    [ reflexivity | exact Hfit | ].
  rewrite H1, H2. simpl. fold (sentences_of text).
  now destruct (sentences_of text).
Qed.

(** Two sentences, sixteen characters charged, against a limit of
    sixteen. *)
Lemma fitting_text_one_chunk_witness :
  chunk_text "One two. Three" 16 = ["One two. Three."].
Proof.
  apply (fitting_text_one_chunk "One two. Three" 16).
  - discriminate.
  - vm_compute. discriminate.
Defined.

Lemma flush_into_flush_into (done pending : list string) (s : string) :
  flush_into (flush_into done pending) [s]
  = flush_into done pending ++ [flush [s]].
Proof. reflexivity. Qed.

Lemma loop_splits_all (max_chars : Z) (pieces : list string) :
  forall st : loop_state,
    0 <= current_length st ->
    Forall (fun s => max_chars < len s + 2)
           (filter (fun x => negb (is_empty x)) (map strip pieces)) ->
    let st' := fold_left (loop_body max_chars) pieces st in
    flush_into (chunks st') (current_chunk st')
    = flush_into (chunks st) (current_chunk st)
      ++ map (fun s => flush [s])
             (filter (fun x => negb (is_empty x)) (map strip pieces)).
Proof.
  induction pieces as [ | p pieces IH ]; intros st H0 Hall.
  - simpl. now rewrite app_nil_r.
  - simpl in Hall. simpl fold_left. simpl map. simpl filter.
    unfold loop_body at 2.
    destruct (is_empty (strip p)) eqn:He; simpl negb in *; cbv iota in *.
    + now apply IH.
    + inversion Hall as [ | ? ? Hp Hrest ]; subst.
      pose proof (len_nonneg (strip p)).
      destruct (Z.leb_spec (current_length st + len (strip p) + 2) max_chars)
        as [Hfit | _]; [ lia | ].
      rewrite IH; [ | simpl; lia | exact Hrest ].
      simpl chunks. simpl current_chunk.
      rewrite flush_into_flush_into. simpl map.
      now rewrite <- app_assoc.
Qed.

(** X4. When no sentence leaves room for its two charged characters
    within the limit (so for every limit below three, zero and negative
    ones included), nothing is joined and nothing refused: there is one
    chunk per sentence, the sentence followed by a period. *)
Theorem small_limit_one_chunk_each (text : string) (max_chars : Z) :
  Forall (fun s => max_chars < len s + 2) (sentences_of text) ->
  chunk_text text max_chars
  = map (fun s => (s ++ ".")%string) (sentences_of text).
Proof.
  intro Hall. unfold chunk_text.
  rewrite loop_splits_all; [ reflexivity | simpl; lia | exact Hall ].
Qed.

(** A negative limit. *)
Lemma small_limit_one_chunk_each_witness :
  chunk_text "A. B c. D" (-1) = ["A."; "B c."; "D."].
Proof.
  apply (small_limit_one_chunk_each "A. B c. D" (-1)).
  repeat constructor.
Defined.

(** *** A separator at the end *)

Lemma replace_app (old new : ascii) (s t : string) :
  replace old new (s ++ t) = (replace old new s ++ replace old new t)%string.
Proof.
  induction s as [ | c s IH ]; [ reflexivity | ].
  simpl. now rewrite IH.
Qed.

Lemma split_dot_space_trailing (s : string) :
  split_dot_space (s ++ ". ") = split_dot_space s ++ [EmptyString].
Proof.
  induction s as [ | c | c1 c2 s IH1 IH2 ] using string_pair_ind.
  - reflexivity.
  - change (String c "" ++ ". ")%string with (String c ". ").
    rewrite !split_dot_space_cons. simpl starts_with_space.
    rewrite !andb_false_r. reflexivity.
  - change (String c1 (String c2 s) ++ ". ")%string
      with (String c1 (String c2 s ++ ". ")).
    rewrite !(split_dot_space_cons c1).
    change (String c2 s ++ ". ")%string with (String c2 (s ++ ". ")) at 1 2.
    simpl starts_with_space.
    destruct (Ascii.eqb c1 dot && Ascii.eqb c2 space).
    + rewrite IH1. reflexivity.
    + rewrite IH2.
      destruct (split_dot_space (String c2 s)) as [ | q qs ] eqn:E;
        [ now elim (split_dot_space_not_nil (String c2 s)) | ].
      reflexivity.
Qed.

Lemma loop_trailing_empty (max_chars : Z) (pieces : list string)
    (st : loop_state) :
  fold_left (loop_body max_chars) (pieces ++ [EmptyString]) st
  = fold_left (loop_body max_chars) pieces st.
Proof. rewrite fold_left_app. reflexivity. Qed.

(** X5. A period and a space, or a period and a newline, added at the
    end of a text leave its chunks as they are. *)
Theorem trailing_separator_absorbed (text : string) (max_chars : Z) :
  chunk_text (text ++ ". ") max_chars = chunk_text text max_chars
  /\ chunk_text (text ++ String dot (String newline "")) max_chars
     = chunk_text text max_chars.
Proof.
  assert (H : forall tail,
             replace newline space tail = ". " ->
             chunk_text (text ++ tail) max_chars
             = chunk_text text max_chars).
  { intros tail Ht. unfold chunk_text.
    rewrite replace_app, Ht, split_dot_space_trailing, loop_trailing_empty.
    reflexivity. }
  split; apply H; reflexivity.
Qed.

(** *** Newlines *)

Lemma occurs_app (c : ascii) (s t : string) :
  occurs c (s ++ t) = occurs c s || occurs c t.
Proof.
  induction s as [ | a s IH ]; [ reflexivity | ].
  simpl. now rewrite IH, orb_assoc.
Qed.

Lemma occurs_replace_newline (s : string) :
  occurs newline (replace newline space s) = false.
Proof.
  induction s as [ | c s IH ]; [ reflexivity | ].
  simpl. rewrite IH, orb_false_r.
  destruct (Ascii.eqb c newline) eqn:E; [ reflexivity | exact E ].
Qed.

Lemma occurs_split_dot_space (c : ascii) (s : string) :
  occurs c s = false ->
  Forall (fun p => occurs c p = false) (split_dot_space s).
Proof.
  induction s as [ | a | c1 c2 s IH1 IH2 ] using string_pair_ind.
  - intros _. repeat constructor.
  - intro H. rewrite split_dot_space_cons. simpl starts_with_space.
    rewrite andb_false_r. repeat constructor. exact H.
  - intro H. rewrite split_dot_space_cons.
    simpl in H. apply orb_false_iff in H. destruct H as [H1 H2].
    pose proof H2 as H3. apply orb_false_iff in H3. destruct H3 as [_ H3].
    destruct (_ && _).
    + constructor; [ reflexivity | now apply IH1 ].
    + specialize (IH2 H2).
      destruct (split_dot_space (String c2 s)) as [ | q qs ];
        [ repeat constructor; simpl; now rewrite H1 | ].
      inversion IH2 as [ | ? ? Hq Hqs ]; subst.
      constructor; [ simpl; now rewrite H1, Hq | exact Hqs ].
Qed.

Lemma occurs_lstrip (c : ascii) (s : string) :
  occurs c s = false -> occurs c (lstrip s) = false.
Proof.
  induction s as [ | a s IH ]; intro H; [ reflexivity | ].
  simpl. destruct (is_space a); [ | exact H ].
  apply IH. simpl in H. now apply orb_false_iff in H.
Qed.

Lemma occurs_rstrip (c : ascii) (s : string) :
  occurs c s = false -> occurs c (rstrip s) = false.
Proof.
  induction s as [ | a s IH ]; intro H; [ reflexivity | ].
  simpl in H. apply orb_false_iff in H. destruct H as [Ha Hs].
  specialize (IH Hs). simpl.
  destruct (rstrip s) as [ | b r ].
  - destruct (is_space a); [ reflexivity | ]. simpl. now rewrite Ha.
  - change (occurs c (String a (String b r)))
      with (Ascii.eqb a c || occurs c (String b r)).
    now rewrite Ha, IH.
Qed.

Lemma occurs_flush (g : list string) :
  Forall (fun p => occurs newline p = false) g ->
  occurs newline (flush g) = false.
Proof.
  intro Hg. unfold flush. rewrite occurs_app, orb_false_r.
  induction Hg as [ | x g Hx Hg IH ]; [ reflexivity | ].
  destruct g as [ | y g ]; [ exact Hx | ].
  change (join ". " (x :: y :: g))
    with (x ++ ". " ++ join ". " (y :: g))%string.
  now rewrite !occurs_app, Hx, IH.
Qed.

Lemma loop_no_newline (max_chars : Z) (pieces : list string) :
  forall st : loop_state,
    Forall (fun p => occurs newline p = false) pieces ->
    Forall (fun c => occurs newline c = false) (chunks st) ->
    Forall (fun p => occurs newline p = false) (current_chunk st) ->
    let st' := fold_left (loop_body max_chars) pieces st in
    Forall (fun c => occurs newline c = false)
           (flush_into (chunks st') (current_chunk st')).
Proof.
  assert (Hfl : forall done pending,
             Forall (fun c => occurs newline c = false) done ->
             Forall (fun p => occurs newline p = false) pending ->
             Forall (fun c => occurs newline c = false)
                    (flush_into done pending)).
  { intros done pending Hd Hp. destruct pending as [ | x g ];
      [ exact Hd | ].
    simpl. apply Forall_app. split; [ exact Hd | ].
    constructor; [ now apply occurs_flush | constructor ]. }
  induction pieces as [ | p pieces IH ]; intros st Hps Hd Hc.
  - now apply Hfl.
  - inversion Hps as [ | ? ? Hp Hps' ]; subst.
    assert (Hsp : occurs newline (strip p) = false)
      by now apply occurs_rstrip, occurs_lstrip.
    simpl fold_left. apply IH; [ exact Hps' | | ]; unfold loop_body;
      destruct (is_empty (strip p)); try assumption;
      destruct (_ <=? _); simpl; try assumption.
    + now apply Hfl.
    + apply Forall_app. split; [ exact Hc | now constructor ].
    + now constructor.
Qed.

(** X6. No chunk contains a newline: every newline of the text has been
    turned into a space before the text is split. *)
Theorem chunks_without_newline (text : string) (max_chars : Z) :
  Forall (fun chunk => occurs newline chunk = false)
         (chunk_text text max_chars).
Proof.
  unfold chunk_text. apply loop_no_newline; try constructor.
  apply occurs_split_dot_space, occurs_replace_newline.
Qed.

(** *** Chunks are closed as late as the running length allows *)

Lemma snoc_split (A : Type) (l pre post : list A) (c c1 c2 : A) :
  l ++ [c] = pre ++ c1 :: c2 :: post ->
  (post = [] /\ c2 = c /\ l = pre ++ [c1])
  \/ (exists post', post = post' ++ [c] /\ l = pre ++ c1 :: c2 :: post').
Proof.
  intro E. destruct (exists_last (l := c2 :: post)) as [post' [x Hx]];
    [ discriminate | ].
  replace (pre ++ c1 :: c2 :: post) with ((pre ++ c1 :: post') ++ [x]) in E
    by (rewrite <- app_assoc; simpl; now rewrite Hx).
  apply app_inj_tail in E. destruct E as [El Ex]. subst x.
  destruct post' as [ | y post' ].
  - left. simpl in Hx. inversion Hx; subst. now repeat split.
  - right. simpl in Hx. inversion Hx; subst. exists post'. now split.
Qed.

Lemma greedy_snoc (max_chars : Z) (l : list string) (c : string) :
  greedy max_chars l ->
  (forall pre c1, l = pre ++ [c1] -> closed_for max_chars c1 c) ->
  greedy max_chars (l ++ [c]).
Proof.
  intros Hl Hlast pre c1 c2 post E.
  apply snoc_split in E. destruct E as [[_ [-> El]] | [post' [_ El]]].
  - now apply (Hlast pre).
  - now apply (Hl pre c1 c2 post').
Qed.

Lemma greedy_flush_into (max_chars : Z) (st : loop_state) :
  greedy_state max_chars st ->
  greedy max_chars (flush_into (chunks st) (current_chunk st)).
Proof.
  intros [Hg [Hlast [Hsep _]]].
  destruct (current_chunk st) as [ | x g ] eqn:E; [ exact Hg | ].
  simpl. apply greedy_snoc; [ exact Hg | ].
  intros pre c1 Hc. unfold closed_for.
  rewrite unflush_flush; [ | discriminate | exact Hsep ].
  now apply (Hlast pre).
Qed.

Lemma loop_body_greedy (max_chars : Z) (st : loop_state) (p : string) :
  has_sep p = false ->
  greedy_state max_chars st ->
  greedy_state max_chars (loop_body max_chars st p).
Proof.
  intros Hp Hst. pose proof (greedy_flush_into max_chars st Hst) as Hfl.
  pose proof (has_sep_strip p Hp) as Hsp.
  pose proof (len_nonneg (strip p)) as Hn.
  unfold loop_body. destruct (is_empty (strip p)); [ exact Hst | ].
  destruct Hst as [Hg [Hlast [Hsep [Hnil Hlen]]]].
  destruct (Z.leb_spec (current_length st + len (strip p) + 2) max_chars)
    as [Hfit | Hover]; unfold greedy_state; simpl.
  - split; [ exact Hg | ].
    destruct (current_chunk st) as [ | x g ] eqn:E.
    + destruct (Hnil eq_refl) as [Hc H0]. simpl.
      repeat split; try discriminate.
      * intros pre c1 Hpre. rewrite Hc in Hpre. now destruct pre.
      * now constructor.
      * lia.
    + repeat split; try discriminate.
      * exact Hlast.
      * apply Forall_app. split; [ exact Hsep | now constructor ].
      * rewrite len_join_snoc by discriminate. change (len ". ") with 2.
        lia.
  - destruct (current_chunk st) as [ | x g ] eqn:E.
    + destruct (Hnil eq_refl) as [Hc H0]. simpl. rewrite Hc.
      repeat split; try discriminate.
      * intros pre c1 c2 post Hpre. now destruct pre.
      * intros pre c1 Hpre. now destruct pre.
      * now constructor.
      * lia.
    + repeat split; try discriminate.
      * exact Hfl.
      * intros pre c1 Hpre. simpl in Hpre.
        apply app_inj_tail in Hpre. destruct Hpre as [_ <-].
        unfold flush. rewrite len_append. change (len ".") with 1.
        simpl hd. lia.
      * now constructor.
      * lia.
Qed.

Lemma loop_greedy (max_chars : Z) (pieces : list string) :
  forall st : loop_state,
    Forall (fun p => has_sep p = false) pieces ->
    greedy_state max_chars st ->
    greedy_state max_chars (fold_left (loop_body max_chars) pieces st).
Proof.
  induction pieces as [ | p pieces IH ]; intros st Hps Hst; [ exact Hst | ].
  inversion Hps as [ | ? ? Hp Hps' ]; subst.
  simpl. apply IH; [ exact Hps' | now apply loop_body_greedy ].
Qed.

(** X18. No chunk is closed early: wherever one chunk follows another,
    the first one, the first sentence of the second and three characters
    more would have gone over the limit. *)
Theorem chunks_closed_late (text : string) (max_chars : Z)
    (pre post : list string) (c1 c2 : string) :
  chunk_text text max_chars = pre ++ c1 :: c2 :: post ->
  max_chars < len c1 + len (hd EmptyString (unflush c2)) + 3.
Proof.
  intro E.
  assert (H : greedy max_chars (chunk_text text max_chars)).
  { unfold chunk_text. apply greedy_flush_into, loop_greedy.
    - apply split_dot_space_pieces.
    - unfold greedy_state. simpl. repeat split; try constructor; try lia.
      + intros p c a b Hp. now destruct p.
      + intros p c Hp. now destruct p. }
  exact (H pre c1 c2 post E).
Qed.

(** The documented example: [15 < 12 + 14 + 3]. *)
Lemma chunks_closed_late_witness :
  15 < len "Hello world." + len "This is a test" + 3.
Proof.
  apply (chunks_closed_late "Hello world. This is a test. Short." 15
           [] ["Short.."] "Hello world." "This is a test.").
  reflexivity.
Defined.

End ChunkerMore.

(** ** More on the rate limiter *)

Section LimiterMore.
Import Limiter.
Local Open Scope Q_scope.

Lemma calls_cons_answers (self : RateLimit) (now : Q) (later : list Q) :
  fst (calls self (now :: later))
  = fst (is_allowed now self)
    :: fst (calls (snd (is_allowed now self)) later).
Proof.
  simpl. destruct (is_allowed now self) as [answer self1]. simpl.
  now destruct (calls self1 later).
Qed.

Lemma is_allowed_requests (now : Q) (self : RateLimit) :
  requests (snd (is_allowed now self))
  = filter (in_window now (time_window self)) (requests self)
    ++ (if fst (is_allowed now self) then [now] else []).
Proof.
  unfold is_allowed, in_window.
  destruct (_ >=? _)%Z; simpl; [ now rewrite app_nil_r | reflexivity ].
Qed.

Lemma is_allowed_answer (now : Q) (self : RateLimit) :
  fst (is_allowed now self)
  = (Z.of_nat (List.length (filter (in_window now (time_window self))
                                   (requests self)))
     <? max_requests self)%Z.
Proof.
  unfold is_allowed, in_window.
  rewrite Z.geb_leb, Z.ltb_antisym.
  now destruct (_ <=? _)%Z.
Qed.

(** *** How many timestamps are kept *)

Lemma is_allowed_count (now : Q) (self : RateLimit) :
  (Z.of_nat (List.length (requests self)) <= Z.max 0 (max_requests self))%Z ->
  (Z.of_nat (List.length (requests (snd (is_allowed now self))))
   <= Z.max 0 (max_requests self))%Z.
Proof.
  intro H. rewrite is_allowed_requests, is_allowed_answer.
  pose proof (filter_length_le (in_window now (time_window self))
                               (requests self)) as Hf.
  destruct (Z.ltb_spec
              (Z.of_nat (List.length (filter (in_window now (time_window self))
                                             (requests self))))
              (max_requests self)) as [Hlt | Hge];
    rewrite length_app; simpl; lia.
Qed.

Lemma calls_count (nows : list Q) :
  forall self : RateLimit,
    (Z.of_nat (List.length (requests self))
     <= Z.max 0 (max_requests self))%Z ->
    (Z.of_nat (List.length (requests (snd (calls self nows))))
     <= Z.max 0 (max_requests self))%Z.
Proof.
  induction nows as [ | now nows IH ]; intros self Hs; [ exact Hs | ].
  rewrite calls_cons, <- (is_allowed_max_requests now self).
  apply IH. rewrite is_allowed_max_requests. now apply is_allowed_count.
Qed.

(** X7. However the clock behaves, a limiter never keeps more timestamps
    than [max_requests] (none, when that is zero or negative). *)
Theorem stored_count_bounded (m w : Z) (nows : list Q) :
  (Z.of_nat (List.length (requests (snd (calls (init m w) nows))))
   <= Z.max 0 m)%Z.
Proof. apply (calls_count nows (init m w)). simpl. lia. Qed.

(** *** A burst of calls within one window *)

Lemma filter_keeps_all (A : Type) (f : A -> bool) (l : list A) :
  Forall (fun x => f x = true) l -> filter f l = l.
Proof.
  induction 1 as [ | x l Hx _ IH ]; simpl; [ reflexivity | ].
  now rewrite Hx, IH.
Qed.

Lemma burst_from (w span : Z) (lo : Q) (nows : list Q) :
  (span < w)%Z ->
  (Z.abs span <= 2 ^ 53)%Z ->
  forall self : RateLimit,
    time_window self = w ->
    Forall (fun t => lo <= t) (requests self) ->
    Forall (fun now => lo <= now /\ now <= lo + inject_Z span) nows ->
    let room :=
      Z.to_nat (max_requests self - Z.of_nat (List.length (requests self))) in
    fst (calls self nows)
    = repeat true (Nat.min (List.length nows) room)
      ++ repeat false (List.length nows - room).
Proof.
  intros Hspan Habs.
  induction nows as [ | now nows IH ]; intros self Hw Hst Hnows;
    [ reflexivity | ].
  inversion Hnows as [ | ? ? [Hlo Hhi] Hnows' ]; subst.
  assert (Hkeep : filter (in_window now (time_window self)) (requests self)
                  = requests self).
  { apply filter_keeps_all. rewrite Forall_forall in *. intros t Ht.
    apply Qlt_bool_true. specialize (Hst t Ht).
    apply Qle_lt_trans with (inject_Z span).
    - apply sub_below; [ exact Habs | lra ].
    - rewrite <- Zlt_Qlt. exact Hspan. }
  rewrite calls_cons_answers.
  pose proof (is_allowed_requests now self) as Hreq.
  pose proof (is_allowed_answer now self) as Hans.
  rewrite Hkeep in Hreq, Hans.
  specialize (IH (snd (is_allowed now self))
                 (is_allowed_time_window now self)).
  rewrite is_allowed_max_requests, Hreq in IH.
  cbv zeta in *. rewrite Hans in *.
  destruct (Z.ltb_spec (Z.of_nat (List.length (requests self)))
                       (max_requests self)) as [Hlt | Hge].
  - rewrite IH; [ | | exact Hnows' ].
    2:{ apply Forall_app. split; [ exact Hst | now repeat constructor ]. }
    rewrite length_app. simpl List.length.
    replace (Z.to_nat (max_requests self
                       - Z.of_nat (List.length (requests self))))
      with (S (Z.to_nat (max_requests self
                         - Z.of_nat (List.length (requests self) + 1))))
      by lia.
    reflexivity.
  - rewrite IH; [ | now rewrite app_nil_r | exact Hnows' ].
    rewrite app_nil_r.
    replace (Z.to_nat (max_requests self
                       - Z.of_nat (List.length (requests self))))
      with 0%nat by lia.
    rewrite !Nat.min_0_r, !Nat.sub_0_r. reflexivity.
Qed.

(** X8. Of the calls made to a new limiter at instants that all lie within
    a whole number of seconds smaller than [time_window] (and no larger
    than 2^53), the first [max_requests] are admitted and every later one
    is refused, in whatever order the instants come. *)
Theorem burst_admits_first (m w span : Z) (lo : Q) (nows : list Q) :
  (span < w)%Z ->
  (Z.abs span <= 2 ^ 53)%Z ->
  Forall (fun now => lo <= now /\ now <= lo + inject_Z span) nows ->
  fst (calls (init m w) nows)
  = repeat true (Nat.min (List.length nows) (Z.to_nat m))
    ++ repeat false (List.length nows - Z.to_nat m).
Proof.
  intros Hspan Habs H.
  rewrite (burst_from w span lo nows Hspan Habs (init m w));
    [ | reflexivity | constructor | exact H ].
  simpl. now rewrite Z.sub_0_r.
Qed.

(** Twelve conversions started within 3599 seconds of one another,
    against the limit of ten per hour of the application. *)
Lemma burst_admits_first_witness :
  fst (calls (init 10 3600)
         [0; 60; 120; 180; 240; 300; 360; 420; 480; 540; 600; 3599])
  = [true; true; true; true; true; true; true; true; true; true;
     false; false].
Proof.
  apply (burst_admits_first 10 3600 3599 0
           [0; 60; 120; 180; 240; 300; 360; 420; 480; 540; 600; 3599]).
  - reflexivity.
  - discriminate.
  - repeat constructor; unfold Qle, Qlt; simpl; lia.
Defined.

(** *** A limiter that admits nothing *)

(** X9. A limiter whose [max_requests] is zero or negative refuses every
    call, whatever it holds and whatever the clock reads. *)
Theorem no_room_refuses_all (self : RateLimit) (nows : list Q) :
  (max_requests self <= 0)%Z ->
  fst (calls self nows) = repeat false (List.length nows).
Proof.
  revert self. induction nows as [ | now nows IH ]; intros self Hm;
    [ reflexivity | ].
  rewrite calls_cons_answers, IH
    by (now rewrite is_allowed_max_requests).
  rewrite is_allowed_answer.
  destruct (Z.ltb_spec
              (Z.of_nat (List.length (filter (in_window now (time_window self))
                                             (requests self))))
              (max_requests self)) as [Hlt | _]; [ lia | reflexivity ].
Qed.

Lemma no_room_refuses_all_witness :
  fst (calls (init 0 3600) [0; 4000; 9000]) = [false; false; false].
Proof.
  apply (no_room_refuses_all (init 0 3600) [0; 4000; 9000]).
  discriminate.
Defined.

(** *** The admissions within the window *)

Lemma filter_filter_implied (A : Type) (f g : A -> bool) (l : list A) :
  (forall x, f x = true -> g x = true) ->
  filter f (filter g l) = filter f l.
Proof.
  intro Himp. induction l as [ | x l IH ]; [ reflexivity | ].
  simpl. destruct (g x) eqn:Eg; simpl; rewrite IH; [ reflexivity | ].
  destruct (f x) eqn:Ef; [ | reflexivity ].
  rewrite (Himp x Ef) in Eg. discriminate.
Qed.

Lemma in_window_later (lo now : Q) (w : Z) (t : Q) :
  lo <= now -> in_window now w t = true -> in_window lo w t = true.
Proof.
  unfold in_window. rewrite !Qlt_bool_true. intros Hle H.
  apply Qle_lt_trans with (Float64.sub now t); [ | exact H ].
  apply sub_le. lra.
Qed.

Lemma admitted_cons (now : Q) (later : list Q) (answer : bool)
    (answers : list bool) :
  admitted (now :: later) (answer :: answers)
  = (if answer then [now] else []) ++ admitted later answers.
Proof. now destruct answer. Qed.

Lemma last_cons (A : Type) (a d : A) (l : list A) :
  last (a :: l) d = last l a.
Proof.
  revert a d. induction l as [ | b l IH ]; intros a d; [ reflexivity | ].
  change (last (a :: b :: l) d) with (last (b :: l) d).
  rewrite (IH b d). symmetry. apply IH.
Qed.

Lemma calls_window (nows : list Q) :
  forall (self : RateLimit) (past : list Q) (lo : Q),
    (0 < time_window self)%Z ->
    requests self = filter (in_window lo (time_window self)) past ->
    StronglySorted Qle (lo :: nows) ->
    requests (snd (calls self nows))
    = filter (in_window (last nows lo) (time_window self))
             (past ++ admitted nows (fst (calls self nows))).
Proof.
  induction nows as [ | now later IH ]; intros self past lo Hw Hreq Hs.
  - simpl. now rewrite app_nil_r.
  - inversion Hs as [ | ? ? Hs' Hlo ]; subst.
    inversion Hlo as [ | ? ? Hle _ ]; subst.
    rewrite calls_cons, calls_cons_answers, admitted_cons, last_cons.
    rewrite app_assoc.
    rewrite <- (is_allowed_time_window now self).
    apply IH.
    + now rewrite is_allowed_time_window.
    + rewrite is_allowed_time_window, is_allowed_requests, Hreq, filter_app.
      rewrite (filter_filter_implied _ _ _ past
                 (fun t => in_window_later lo now (time_window self) t Hle)).
      f_equal. destruct (fst (is_allowed now self)); [ | reflexivity ].
      simpl. replace (in_window now (time_window self) now) with true;
        [ reflexivity | ].
      symmetry. apply Qlt_bool_true.
      rewrite sub_same. rewrite (Zlt_Qlt 0) in Hw. exact Hw.
    + exact Hs'.
Qed.

(** X10. For a limiter with a positive [time_window], called at
    nondecreasing clock readings: after every call the stored timestamps
    are exactly the instants of the admitted calls whose age at that call,
    computed as the code computes it, is below [time_window]; and they
    number at most [max_requests]. *)
Theorem admissions_within_window_bounded
    (m w : Z) (earlier : list Q) (now : Q) :
  (0 < w)%Z ->
  Sorted Qle (earlier ++ [now]) ->
  let run := calls (init m w) (earlier ++ [now]) in
  let recent := filter (in_window now w)
                       (admitted (earlier ++ [now]) (fst run)) in
  requests (snd run) = recent
  /\ (Z.of_nat (List.length recent) <= Z.max 0 m)%Z.
Proof.
  intros Hw Hs.
  assert (Htrans : Relations_1.Transitive Qle)
    by (intros x y z; apply Qle_trans).
  apply (Sorted_StronglySorted Htrans) in Hs.
  set (lo := hd now earlier).
  assert (Hlo : StronglySorted Qle (lo :: earlier ++ [now])).
  { constructor; [ exact Hs | ].
    destruct earlier as [ | a earlier ]; simpl in *.
    - constructor; [ apply Qle_refl | constructor ].
    - inversion Hs; subst. constructor; [ apply Qle_refl | assumption ]. }
  pose proof (calls_window (earlier ++ [now]) (init m w) [] lo Hw eq_refl Hlo)
    as Hreq.
  rewrite last_last in Hreq. simpl in Hreq.
  cbv zeta. split; [ exact Hreq | ].
  rewrite <- Hreq. apply (calls_count (earlier ++ [now]) (init m w)).
  simpl. lia.
Qed.

(** Five calls to a limiter of two requests per ten seconds. *)
Lemma admissions_within_window_bounded_witness :
  let run := calls (init 2 10) [0; 3; 5; 11; 14] in
  let recent := filter (in_window 14 10) (admitted [0; 3; 5; 11; 14] (fst run))
  in requests (snd run) = recent
     /\ (Z.of_nat (List.length recent) <= Z.max 0 2)%Z.
Proof.
  apply (admissions_within_window_bounded 2 10 [0; 3; 5; 11] 14).
  - reflexivity.
  - repeat constructor; unfold Qle; simpl; lia.
Defined.

(** *** Room again *)

Lemma filter_length_lt (A : Type) (f : A -> bool) (l : list A) (x : A) :
  In x l -> f x = false ->
  (List.length (filter f l) < List.length l)%nat.
Proof.
  intros Hin Hf. induction l as [ | a l IH ]; [ now elim Hin | ].
  pose proof (filter_length_le f l). simpl.
  destruct Hin as [-> | Hin].
  - rewrite Hf. lia.
  - specialize (IH Hin). destruct (f a); simpl; lia.
Qed.

(** X11. A limiter holding no more timestamps than [max_requests], and
    whose [time_window] is no larger than 2^53, admits a call as soon as
    one of its timestamps is aged [time_window] or more at that call: the
    refusal lasts no longer than the window of the oldest admission. *)
Theorem aged_entry_makes_room (now : Q) (self : RateLimit) (t : Q) :
  (Z.abs (time_window self) <= 2 ^ 53)%Z ->
  (Z.of_nat (List.length (requests self)) <= max_requests self)%Z ->
  In t (requests self) ->
  inject_Z (time_window self) <= now - t ->
  fst (is_allowed now self) = true.
Proof.
  intros Hw Hlen Hin Hold. rewrite is_allowed_answer.
  assert (Hout : in_window now (time_window self) t = false).
  { unfold in_window.
    destruct (Qlt_bool_spec (Float64.sub now t)
                (inject_Z (time_window self))) as [H | _];
      [ | reflexivity ].
    exfalso. apply (Qlt_not_le _ _ H). now apply sub_above. }
  pose proof (filter_length_lt _ _ _ _ Hin Hout).
  apply Z.ltb_lt. lia.
Qed.

(** A full limiter of two per ten seconds, asked ten seconds after its
    older entry. *)
Lemma aged_entry_makes_room_witness :
  fst (is_allowed 10 (mk_RateLimit 2 10 [0; 4])) = true.
Proof.
  apply (aged_entry_makes_room 10 (mk_RateLimit 2 10 [0; 4]) 0).
  - discriminate.
  - simpl. lia.
  - now left.
  - unfold Qle. simpl. lia.
Defined.

(** With a window of 2^53 + 1 seconds the bound is needed: an age of
    exactly the window is computed as 2^53, and the entry is kept. *)
Example huge_window_keeps_aged_entry :
  inject_Z (2 ^ 53 + 1) <= inject_Z (2 ^ 53 + 2) - 1
  /\ fst (is_allowed (inject_Z (2 ^ 53 + 2))
                     (mk_RateLimit 1 (2 ^ 53 + 1) [1])) = false.
Proof. split; [ discriminate | reflexivity ]. Qed.

(** *** Ages, exactly *)

(** X20. For a limiter whose [time_window] is positive and no larger than
    2^53, called at nondecreasing clock readings: after every call each
    stored timestamp is less than [time_window] seconds before the
    instant of that call, in exact arithmetic too. *)
Theorem stored_ages_exact (m w : Z) (earlier : list Q) (now : Q) :
  (0 < w <= 2 ^ 53)%Z ->
  Sorted Qle (earlier ++ [now]) ->
  Forall (fun t => now - t < inject_Z w)
         (requests (snd (calls (init m w) (earlier ++ [now])))).
Proof.
  intros [Hw Hmax] Hs.
  destruct (new_limiter_ordered_within_window m w earlier now Hw Hs)
    as [_ H].
  eapply Forall_impl; [ | exact H ].
  intros t Ht. simpl in Ht. apply Qnot_le_lt. intro Hge.
  apply (Qlt_not_le _ _ Ht). apply sub_above; [ lia | exact Hge ].
Qed.

(** Four calls to a limiter of two requests per ten seconds. *)
Lemma stored_ages_exact_witness :
  Forall (fun t => 11 - t < inject_Z 10)
         (requests (snd (calls (init 2 10) [0; 1; 2; 11]))).
Proof.
  apply (stored_ages_exact 2 10 [0; 1; 2] 11).
  - split; [ reflexivity | discriminate ].
  - repeat constructor; unfold Qle; simpl; lia.
Defined.

End LimiterMore.

(** ** More on speech synthesis *)

Section SpeechMore.
Import PyStr Chunker Limiter Speech.

Variable World : Type.
Variable clock : World -> Q.
Variable generate :
  World -> string -> string -> string -> World * (failure + bytes).
Variable sleep : Q -> World -> World.

Lemma synthesize_finished (todo : list string) :
  forall voice total i acc w segments,
    snd (synthesize World generate sleep voice total i todo acc w)
    = inr segments ->
    let evs :=
      snd (fst (synthesize World generate sleep voice total i todo acc w)) in
    segments = acc ++ returned evs
    /\ progress_of evs
       = map (fun k => ((i + Z.of_nat k)%Z, total))
             (seq 1 (List.length todo))
    /\ pauses evs = repeat pause (List.length todo).
Proof.
  induction todo as [ | chunk todo IH ];
    intros voice total i acc w segments.
  - simpl. intro E. inversion E; subst. now rewrite app_nil_r.
  - simpl. destruct (generate w chunk voice model_id) as [w1 [e | audio]];
      [ discriminate | ].
    specialize (IH voice total (i + 1)%Z (acc ++ [audio]) (sleep pause w1)
                   segments).
    destruct (synthesize _ _ _ _ _ _ todo _ _) as [[w2 evs] res].
    simpl in *. intro E. destruct (IH E) as [H1 [H2 H3]].
    split; [ now rewrite H1, <- app_assoc | ].
    split; [ | now rewrite H3 ].
    rewrite H2. f_equal.
    rewrite <- (seq_shift (List.length todo) 1), map_map.
    apply map_ext. intro k. f_equal. lia.
Qed.

(** X12. When an invocation returns, its audio segments are exactly what
    the service returned, one per chunk and in the order of the chunks;
    the progress bar has shown 1/n, 2/n, ..., n/n for the n chunks; and
    one pause of half a second has followed every request, the last one
    included. *)
Theorem finished_run (text voice : string) (self : PDFAudioReader)
    (w : World) (segments : list bytes) :
  let o := text_to_speech World clock generate sleep text voice self w in
  let n := List.length (chunk_text text default_max_chars) in
  result o = inr segments ->
  segments = returned (events o)
  /\ progress_of (events o)
     = map (fun k => (Z.of_nat k, Z.of_nat n)) (seq 1 n)
  /\ pauses (events o) = repeat pause n.
Proof.
  unfold text_to_speech.
  destruct (is_allowed (clock w) (rate_limiter self)) as [allowed limiter].
  destruct allowed; simpl negb; cbv iota; [ | discriminate ].
  set (chunks := chunk_text text default_max_chars).
  pose proof (synthesize_finished chunks voice
                (Z.of_nat (List.length chunks)) 0%Z [] w segments) as H.
  destruct (synthesize _ _ _ _ _ _ chunks _ _) as [[w1 evs] res].
  simpl in *. intro E. destruct (H E) as [H1 [H2 H3]].
  repeat split; assumption.
Qed.

(** X13. A text with no sentence, when the limiter admits the call, gives
    no audio and makes no request; the admission is used up all the same:
    its instant is stored in the limiter. *)
Theorem blank_text_uses_admission (text voice : string)
    (self : PDFAudioReader) (w : World) :
  blank text = true ->
  fst (is_allowed (clock w) (rate_limiter self)) = true ->
  let o := text_to_speech World clock generate sleep text voice self w in
  result o = inr []
  /\ submitted (events o) = []
  /\ In (clock w) (requests (rate_limiter (self' o))).
Proof.
  intros Hb Ha.
  assert (Hc : chunk_text text default_max_chars = []).
  { unfold chunk_text.
    rewrite loop_skips_blank; [ reflexivity | now apply blank_pieces ]. }
  pose proof (is_allowed_requests (clock w) (rate_limiter self)) as Hreq.
  unfold text_to_speech.
  destruct (is_allowed (clock w) (rate_limiter self)) as [allowed limiter].
  simpl in Ha, Hreq. subst allowed. simpl negb. cbv iota.
  rewrite Hc. simpl. repeat split.
  rewrite Hreq. apply in_or_app. right. now left.
Qed.

End SpeechMore.

(** In the sample world, a short text: one chunk, one request. *)
Lemma finished_run_witness :
  Speech.result (Speech.text_to_speech nat Speech.Sample.clock
                   Speech.Sample.generate Speech.Sample.sleep
                   "Hello. World" "Rachel" Speech.Sample.reader 0%nat)
  = inr [[Byte.x49; Byte.x44]]
  /\ Speech.pauses
       (Speech.events (Speech.text_to_speech nat Speech.Sample.clock
                         Speech.Sample.generate Speech.Sample.sleep
                         "Hello. World" "Rachel" Speech.Sample.reader 0%nat))
     = [Speech.pause].
Proof.
  split; [ reflexivity | ].
  apply (finished_run nat Speech.Sample.clock Speech.Sample.generate
           Speech.Sample.sleep "Hello. World" "Rachel" Speech.Sample.reader
           0%nat [[Byte.x49; Byte.x44]]).
  reflexivity.
Defined.

(** In the sample world, a text of two empty pages. *)
Lemma blank_text_uses_admission_witness :
  Speech.result (Speech.text_to_speech nat Speech.Sample.clock
                   Speech.Sample.generate Speech.Sample.sleep
                   (String PyStr.newline (String PyStr.newline ""))
                   "Rachel" Speech.Sample.reader 0%nat)
  = inr [].
Proof.
  apply (blank_text_uses_admission nat Speech.Sample.clock
           Speech.Sample.generate Speech.Sample.sleep
           (String PyStr.newline (String PyStr.newline ""))
           "Rachel" Speech.Sample.reader 0%nat); reflexivity.
Defined.

(** ** Text extraction *)

Section ExtractorFacts.
Import PyStr Chunker Speech Extractor.

Lemma string_app_assoc (a b c : string) :
  ((a ++ b) ++ c = a ++ (b ++ c))%string.
Proof.
  induction a as [ | x a IH ]; [ reflexivity | ].
  simpl. now rewrite IH.
Qed.

Lemma string_app_nil_r (a : string) : (a ++ "")%string = a.
Proof.
  induction a as [ | x a IH ]; [ reflexivity | ].
  simpl. now rewrite IH.
Qed.

Lemma read_pages_returns (pages : list (failure + string)) :
  forall total i text result,
    snd (read_pages total i pages text) = inr result ->
    exists page_texts,
      pages = map inr page_texts
      /\ result = (text ++ lines page_texts)%string.
Proof.
  induction pages as [ | [e | t] pages IH ]; intros total i text result.
  - simpl. intro E. inversion E. exists [].
    split; [ reflexivity | ]. simpl. now rewrite string_app_nil_r.
  - discriminate.
  - simpl.
    specialize (IH total (i + 1)%Z (text ++ (t ++ String newline ""))%string
                   result).
    destruct (read_pages _ _ pages _) as [evs r]. simpl in *.
    intro E. destruct (IH E) as [page_texts [Hp Hr]].
    exists (t :: page_texts). split; [ now rewrite Hp | ].
    rewrite Hr. simpl. now rewrite !string_app_assoc.
Qed.

Lemma read_pages_all (page_texts : list string) :
  forall total i text,
    snd (read_pages total i (map inr page_texts) text)
    = inr (text ++ lines page_texts)%string.
Proof.
  induction page_texts as [ | t page_texts IH ]; intros total i text.
  - simpl. now rewrite string_app_nil_r.
  - simpl.
    specialize (IH total (i + 1)%Z (text ++ (t ++ String newline ""))%string).
    destruct (read_pages _ _ (map inr page_texts) _) as [evs r].
    simpl in *. rewrite IH. now rewrite !string_app_assoc.
Qed.

(** X14. The extraction returns a text exactly when the file opens and
    every page gives its text, and the text is then every page text
    followed by a newline, in order. In every other case the exception
    raised carries the one fixed message, whatever the cause was. *)
Theorem extraction_all_or_nothing (pdf_file : pdf) :
  (forall text,
      snd (extract_text_from_pdf pdf_file) = inr text
      <-> exists page_texts,
            pdf_file = Readable (map inr page_texts)
            /\ text = lines page_texts)
  /\ (forall e,
        snd (extract_text_from_pdf pdf_file) = inl e ->
        e = Exception read_error_message).
Proof.
  split.
  - intro text. split.
    + destruct pdf_file as [e | pages]; [ discriminate | ].
      unfold extract_text_from_pdf.
      pose proof (read_pages_returns pages
                    (Z.of_nat (List.length pages)) 0 "" ) as H.
      destruct (read_pages _ _ pages _) as [evs [e | t]];
        [ discriminate | ].
      simpl in *. intro E. inversion E; subst.
      destruct (H text eq_refl) as [page_texts [Hp Ht]].
      exists page_texts. now rewrite Hp.
    + intros [page_texts [-> ->]]. unfold extract_text_from_pdf.
      pose proof (read_pages_all page_texts
                    (Z.of_nat (List.length (map (@inr failure string)
                                                page_texts))) 0 "") as H.
      destruct (read_pages _ _ (map inr page_texts) _) as [evs r].
      simpl in H. now rewrite H.
  - intro e. destruct pdf_file as [e0 | pages].
    + simpl. intro E. now inversion E.
    + unfold extract_text_from_pdf.
      destruct (read_pages _ _ pages _) as [evs [e1 | t]]; simpl;
        intro E; [ now inversion E | discriminate ].
Qed.

(** Two pages. *)
Lemma extraction_all_or_nothing_witness :
  snd (extract_text_from_pdf (Readable [inr "Page one."; inr "Page two."]))
  = inr ("Page one." ++ String newline ("Page two." ++ String newline ""))
        %string.
Proof.
  apply (proj2 (proj1 (extraction_all_or_nothing
                         (Readable [inr "Page one."; inr "Page two."])) _)).
  exists ["Page one."; "Page two."]. split; reflexivity.
Defined.

(** *** Pages without text *)

Lemma blank_app (a b : string) :
  blank a = true -> blank b = true -> blank (a ++ b) = true.
Proof.
  induction a as [ | c | c1 c2 a IH1 IH2 ] using string_pair_ind;
    intros Ha Hb.
  - exact Hb.
  - simpl in *. destruct (is_space c); [ exact Hb | ].
    destruct (Ascii.eqb c dot); discriminate.
  - change ((if is_space c1 then blank (String c2 a ++ b)
             else if Ascii.eqb c1 dot
                  then (Ascii.eqb c2 space || Ascii.eqb c2 newline)
                       && blank (a ++ b)
                  else false) = true).
    change (blank (String c1 (String c2 a)))
      with (if is_space c1 then blank (String c2 a)
            else if Ascii.eqb c1 dot
                 then (Ascii.eqb c2 space || Ascii.eqb c2 newline) && blank a
                 else false) in Ha.
    destruct (is_space c1); [ now apply IH2 | ].
    destruct (Ascii.eqb c1 dot); [ | discriminate ].
    apply andb_true_iff in Ha. destruct Ha as [Hc Ha].
    rewrite Hc. simpl. now apply IH1.
Qed.

Lemma blank_lines (page_texts : list string) :
  Forall (fun t => blank t = true) page_texts ->
  blank (lines page_texts) = true.
Proof.
  induction 1 as [ | t page_texts Ht _ IH ]; [ reflexivity | ].
  simpl. apply blank_app; [ exact Ht | exact IH ].
Qed.

(** X15. A file whose pages give no text, or whitespace only, as a
    scanned document does, is extracted without error and has no chunk:
    the conversion will make no request. *)
Theorem empty_pages_no_chunk (page_texts : list string) (max_chars : Z) :
  Forall (fun t => blank t = true) page_texts ->
  exists text,
    snd (extract_text_from_pdf (Readable (map inr page_texts))) = inr text
    /\ chunk_text text max_chars = [].
Proof.
  intro Hb. exists (lines page_texts). split.
  - unfold extract_text_from_pdf.
    pose proof (read_pages_all page_texts
                  (Z.of_nat (List.length (map (@inr failure string)
                                              page_texts))) 0 "") as H.
    destruct (read_pages _ _ (map inr page_texts) _) as [evs r].
    simpl in H. now rewrite H.
  - unfold chunk_text.
    rewrite loop_skips_blank; [ reflexivity | ].
    now apply blank_pieces, blank_lines.
Qed.

(** Three pages: an empty one, one of spaces, one of a tab. *)
Lemma empty_pages_no_chunk_witness :
  exists text,
    snd (extract_text_from_pdf
           (Readable (map inr [""; "   "; String "009" ""]))) = inr text
    /\ chunk_text text default_max_chars = [].
Proof.
  apply (empty_pages_no_chunk [""; "   "; String "009" ""]
           default_max_chars).
  repeat constructor.
Defined.

End ExtractorFacts.

(** ** The voice list and the download names *)

Section MainFacts.
Import Main.

Lemma contains_In (x : string) (l : list string) :
  contains x l = true <-> In x l.
Proof.
  unfold contains. rewrite existsb_exists. split.
  - intros [y [Hy E]]. apply String.eqb_eq in E. now subst.
  - intro H. exists x. split; [ exact H | apply String.eqb_refl ].
Qed.

Lemma index_first (x : string) (l : list string) :
  In x l ->
  exists i, index x l = Some i
            /\ nth_error l i = Some x
            /\ ~ In x (firstn i l).
Proof.
  induction l as [ | y l IH ]; intro Hin; [ now elim Hin | ].
  simpl. destruct (String.eqb_spec y x) as [-> | Hne].
  - exists O. repeat split. intros [].
  - destruct Hin as [E | Hin]; [ now elim Hne | ].
    destruct (IH Hin) as [i [Hi [Hn Hf]]]. rewrite Hi.
    exists (S i). repeat split; [ exact Hn | ].
    simpl. intros [E | H]; [ now elim Hne | now elim Hf ].
Qed.

(** X16. The preselected voice is always defined, the lookup never
    failing: it is the first voice named Josh when there is one, and the
    first voice of the list otherwise. *)
Theorem default_voice (voice_names : list string) :
  exists i,
    default_voice_index voice_names = Some i
    /\ (In "Josh" voice_names ->
        nth_error voice_names i = Some "Josh"
        /\ ~ In "Josh" (firstn i voice_names))
    /\ (~ In "Josh" voice_names -> i = O).
Proof.
  unfold default_voice_index.
  destruct (contains "Josh" voice_names) eqn:E.
  - apply contains_In in E. destruct (index_first _ _ E) as [i [Hi H]].
    exists i. split; [ exact Hi | split; [ now intros _ | ] ].
    intro Hn. now elim Hn.
  - exists O. split; [ reflexivity | split; [ | reflexivity ] ].
    intro Hin. apply contains_In in Hin. congruence.
Qed.

(** Josh in second place. *)
Lemma default_voice_witness :
  exists i,
    default_voice_index ["Rachel"; "Josh"; "Bella"; "Josh"] = Some i
    /\ nth_error ["Rachel"; "Josh"; "Bella"; "Josh"] i = Some "Josh".
Proof.
  destruct (default_voice ["Rachel"; "Josh"; "Bella"; "Josh"])
    as [i [Hi [Hjosh _]]].
  exists i. split; [ exact Hi | ].
  apply Hjosh. simpl. right. now left.
Defined.

(** *** File names of the parts *)

Lemma str_of_nat_inj (i j : nat) : str_of_nat i = str_of_nat j -> i = j.
Proof.
  unfold str_of_nat. intro E.
  apply DecimalNat.Unsigned.to_uint_inj.
  apply (f_equal NilEmpty.uint_of_string) in E.
  rewrite !NilEmpty.usu in E. now inversion E.
Qed.

Lemma string_app_inv_head (a b c : string) :
  (a ++ b = a ++ c)%string -> b = c.
Proof.
  induction a as [ | x a IH ]; [ trivial | ].
  simpl. intro E. inversion E. now apply IH.
Qed.

Lemma string_length_app (a b : string) :
  String.length (a ++ b) = (String.length a + String.length b)%nat.
Proof.
  induction a as [ | x a IH ]; [ reflexivity | ].
  simpl. now rewrite IH.
Qed.

Lemma string_app_inv_tail (a b c : string) :
  (a ++ c = b ++ c)%string -> a = b.
Proof.
  revert b. induction a as [ | x a IH ]; intros b E.
  - destruct b as [ | y b ]; [ reflexivity | ].
    apply (f_equal String.length) in E. simpl in E.
    rewrite string_length_app in E. lia.
  - destruct b as [ | y b ].
    + apply (f_equal String.length) in E. simpl in E.
      rewrite string_length_app in E. lia.
    + simpl in E. inversion E. f_equal. now apply IH.
Qed.

Lemma download_name_inj (file_name : string) (i j : nat) :
  download_name file_name i = download_name file_name j -> i = j.
Proof.
  unfold download_name. intro E.
  apply string_app_inv_head in E.
  apply (string_app_inv_head "_part_") in E.
  apply string_app_inv_tail in E.
  now apply str_of_nat_inj.
Qed.

(** X17. The parts of one conversion are offered under file names that
    all differ, so no download replaces another. *)
Theorem download_names_distinct (file_name : string)
    (segments : list Speech.bytes) :
  NoDup (download_names file_name segments).
Proof.
  unfold download_names. apply Injective_map_NoDup.
  - intros i j. apply download_name_inj.
  - apply seq_NoDup.
Qed.

End MainFacts.
